(** * Jeopardy: the category/clue acquisition and the reveal state machine

    A shallow embedding of [script.js].  The script keeps one global array
    [categories], fills it from two HTTP endpoints and mutates the [showing]
    flag of one clue per click.  Effects are modelled by a state-and-exception
    monad over the page state; the network and [Math.random] are an explicit
    environment, so that every statement below quantifies over all servers and
    all random outcomes.  The chain of a start is given twice: run in one
    piece, and cut at its [await]s, as a task on a page where starts may
    overlap. *)

From stdpp Require Import base relations list strings pretty.

Local Open Scope string_scope.
Local Open Scope nat_scope.
Local Open Scope list_scope.
Set Warnings "-abstract-large-number".

(** ** Constants (script.js, lines 21-22) *)

Definition NUM_CATEGORIES : nat := 6.
Definition NUM_CLUES : nat := 5.

(** ** Data model (script.js, lines 1-19) *)

(** [clue.showing] is [null], ['question'] or ['answer']. *)
Inductive Showing := Hidden | Question | Answer.

Record Clue := mkClue {
  question : string;
  answer : string;
  showing : Showing }.

Record Category := mkCategory {
  title : string;
  clues : list Clue }.

#[global] Instance Showing_eq_dec : EqDecision Showing.
Proof. solve_decision. Defined.
#[global] Instance Clue_eq_dec : EqDecision Clue.
Proof. solve_decision. Defined.
#[global] Instance Category_eq_dec : EqDecision Category.
Proof. solve_decision. Defined.

(** ** Payloads of the remote trivia source

    [GET /api/categories] answers with an array of [{id, ...}] and
    [GET /api/category] with [{title, clues: [{question, answer, ...}]}].
    The fields the script never reads are kept as an association list. *)
Module Api.

Record entry := mkEntry {
  id : nat;
  entry_rest : list (string * string) }.

Record clue := mkClue {
  question : string;
  answer : string;
  clue_rest : list (string * string) }.

Record category := mkCategory {
  title : string;
  clues : list clue }.

End Api.

(** ** The two lodash helpers the script calls

lodash is a dependency, not part of the repository; the definitions follow
lodash 4.17 ([chunk], and [sampleSize] on arrays, which is [shuffleSelf] on
a copy with the size clamped to the length). *)
Module Lodash.
Section Generic.
Context {A : Type}.

(** [_.chunk(array, size)]: slot [k] of the result is
    [array.slice(k * size, (k + 1) * size)], for [ceil(length / size)]
    slots; an empty array or [size < 1] gives [[]]. *)
Definition chunk (array : list A) (size : nat) : list (list A) :=
  if decide (size < 1) then []
  else (λ k, take size (drop (k * size) array))
         <$> seq 0 ((length array + size - 1) / size).

(** [baseRandom(lower, upper)] is
    [lower + floor(Math.random() * (upper - lower + 1))]; [r] is the raw
    outcome of that call to [Math.random]. *)
Definition baseRandom (r lower upper : nat) : nat :=
  lower + r mod (upper - lower + 1).

(** One round of the loop of [shuffleSelf]:
    [value = array[rand]; array[rand] = array[index]; array[index] = value].
    The loop only runs with [index <= rand <= lastIndex], so both slots
    exist. *)
Definition swap (index rand : nat) (array : list A) : list A :=
  match array !! rand, array !! index with
  | Some value, Some x => <[index := value]> (<[rand := x]> array)
  | _, _ => array
  end.

(** [while (++index < size)], with [n] rounds left; [draw i] is the raw
    random outcome used in round [i]. *)
Fixpoint shuffle_loop (draw : nat → nat) (lastIndex index n : nat)
    (array : list A) : list A :=
  match n with
  | 0 => array
  | S n' =>
      let rand := baseRandom (draw index) index lastIndex in
      shuffle_loop draw lastIndex (S index) n' (swap index rand array)
  end.

(** [shuffleSelf(array, size)], ending with [array.length = size]. *)
Definition shuffleSelf (draw : nat → nat) (array : list A) (size : nat)
    : list A :=
  take size (shuffle_loop draw (length array - 1) 0 size array).

(** [_.sampleSize(array, n)] = [shuffleSelf(copyArray(array),
    baseClamp(n, 0, array.length))]. *)
Definition sampleSize (draw : nat → nat) (array : list A) (n : nat)
    : list A :=
  shuffleSelf draw array (n `min` length array).
End Generic.
End Lodash.

(** ** The page: DOM nodes the script creates and the global state *)

(** A [<td>] of the board body. *)
Record Td := mkTd {
  data_category : nat;      (* the data-category attribute *)
  innerText : string;
  classList : string }.

(** A [<tr>] of the board body. *)
Record Tr := mkTr {
  tr_id : nat;              (* the id attribute *)
  tr_cells : list Td }.

Inductive BoardNode :=
| Thead (titles : list string)
| Tbody (rows : list Tr).

(** Requests sent through [axios.get]; each one is logged when it is issued
    and when its promise settles. *)
Inductive Request :=
| GetCategories (count offset : nat)
| GetCategory (id : nat).

Inductive NetEvent :=
| Issued (r : Request)
| Failed (r : Request)
| GotCategories (r : Request) (data : list Api.entry)
| GotCategory (r : Request) (data : Api.category).

(** The environment: the raw outcome of the [k]-th call of [Math.random], and
    what the two endpoints answer ([None]: the promise is rejected) given
    everything that went over the network before. *)
Record Env := mkEnv {
  random_outcome : nat → nat;
  categories_endpoint : list NetEvent → nat → nat → option (list Api.entry);
  category_endpoint : list NetEvent → nat → option Api.category }.

Record State := mkState {
  categories : list Category;        (* let categories = [] *)
  board : list BoardNode;            (* children of #gameboard *)
  spinner_display : string;          (* #loading-spinner, css display *)
  btn_text : string;                 (* btn[0].innerText *)
  alerts : list string;              (* calls of alert, latest last *)
  net_log : list NetEvent;           (* network traffic, latest last *)
  random_calls : nat }.              (* calls of Math.random so far *)

(** ** Effects: state plus exceptions *)

Inductive Exn := NetworkError | TypeError.

Inductive Outcome (A : Type) :=
| Returned (a : A)
| Thrown (e : Exn).
Arguments Returned {A} a.
Arguments Thrown {A} e.

Definition M (A : Type) : Type := State → Outcome A * State.

Definition ret {A} (a : A) : M A := λ st, (Returned a, st).

Definition throw {A} (e : Exn) : M A := λ st, (Thrown e, st).

Definition bind {A B} (m : M A) (k : A → M B) : M B :=
  λ st, match m st with
        | (Returned a, st') => k a st'
        | (Thrown e, st') => (Thrown e, st')
        end.

(** [p.then(...).catch(handler)] and [try ... catch]: the state reached when
    the exception was thrown is kept. *)
Definition catch {A} (m : M A) (handler : Exn → M A) : M A :=
  λ st, match m st with
        | (Returned a, st') => (Returned a, st')
        | (Thrown e, st') => handler e st'
        end.

Definition gets {A} (f : State → A) : M A := λ st, (Returned (f st), st).

Definition modify (f : State → State) : M unit := λ st, (Returned tt, f st).

#[global] Instance M_ret : MRet M := @ret.
#[global] Instance M_bind : MBind M := λ A B k m, bind m k.

(** *** Field updates *)

Definition set_categories (cs : list Category) (st : State) : State :=
  mkState cs (board st) (spinner_display st) (btn_text st) (alerts st)
          (net_log st) (random_calls st).

Definition set_board (b : list BoardNode) (st : State) : State :=
  mkState (categories st) b (spinner_display st) (btn_text st) (alerts st)
          (net_log st) (random_calls st).

Definition set_spinner_display (d : string) (st : State) : State :=
  mkState (categories st) (board st) d (btn_text st) (alerts st)
          (net_log st) (random_calls st).

Definition set_btn_text (t : string) (st : State) : State :=
  mkState (categories st) (board st) (spinner_display st) t (alerts st)
          (net_log st) (random_calls st).

Definition add_alert (msg : string) (st : State) : State :=
  mkState (categories st) (board st) (spinner_display st) (btn_text st)
          (alerts st ++ [msg]) (net_log st) (random_calls st).

Definition log_net (ev : NetEvent) (st : State) : State :=
  mkState (categories st) (board st) (spinner_display st) (btn_text st)
          (alerts st) (net_log st ++ [ev]) (random_calls st).

Definition use_random (n : nat) (st : State) : State :=
  mkState (categories st) (board st) (spinner_display st) (btn_text st)
          (alerts st) (net_log st) (random_calls st + n).

(** ** Primitives of the runtime *)

(** [Math.floor(Math.random() * n)] *)
Definition Math_floor_random (env : Env) (n : nat) : M nat :=
  k ← gets random_calls;
  modify (use_random 1);;
  mret (random_outcome env k `mod` n).

(** [await axios.get('https://jservice.io/api/categories', {params})] *)
Definition axios_get_categories (env : Env) (count offset : nat)
    : M (list Api.entry) :=
  let r := GetCategories count offset in
  modify (log_net (Issued r));;
  history ← gets net_log;
  match categories_endpoint env history count offset with
  | Some data => modify (log_net (GotCategories r data));; mret data
  | None => modify (log_net (Failed r));; throw NetworkError
  end.

(** [await axios.get('https://jservice.io/api/category', {params: {id}})] *)
Definition axios_get_category (env : Env) (id : nat) : M Api.category :=
  let r := GetCategory id in
  modify (log_net (Issued r));;
  history ← gets net_log;
  match category_endpoint env history id with
  | Some data => modify (log_net (GotCategory r data));; mret data
  | None => modify (log_net (Failed r));; throw NetworkError
  end.

(** [_.sampleSize(array, n)], drawing from [Math.random] once per round. *)
Definition sampleSize {A} (env : Env) (array : list A) (n : nat) : M (list A) :=
  k ← gets random_calls;
  modify (use_random (n `min` length array));;
  mret (Lodash.sampleSize (λ i, random_outcome env (k + i)) array n).

(** Reading a property of [undefined] throws a [TypeError]. *)
Definition defined {A} (v : option A) : M A :=
  match v with
  | Some a => mret a
  | None => throw TypeError
  end.

(** ** Acquisition (script.js, lines 27-75)

    [getCategory], [getCategoryIds] and, further down, [setupAndStart] run
    through their [await]s in one piece: they are the run of a start while no
    other start is in flight.  The section on starts in flight cuts the chain
    at its [await]s and lets starts overlap; [start_alone_settled] shows that
    a start alone does what these definitions say. *)

(** [clue => ({question: clue.question, answer: clue.answer, showing: null})] *)
Definition project (clue : Api.clue) : Clue :=
  {| question := Api.question clue;
     answer := Api.answer clue;
     showing := Hidden |}.

(** The body of the [for ... of] loop of [getCategory], lines 58-72. *)
Definition getCategory_body (env : Env) (id : nat) : M unit :=
  response ← axios_get_category env id;
  randomClues ← defined (Lodash.chunk (Api.clues response) NUM_CLUES !! 0);
  let clues := project <$> randomClues in
  modify (λ st, set_categories
                  (categories st ++ [ {| title := Api.title response;
                                         clues := clues |} ]) st).

Fixpoint getCategory (env : Env) (categoryIdArray : list nat)
    : M (list Category) :=
  match categoryIdArray with
  | [] => gets categories
  | id :: rest => getCategory_body env id;; getCategory env rest
  end.

(** Lines 34-40 up to the argument handed to [getCategory]:
    [randomArray.map(category => category.id)]. *)
Definition selectCategoryIds (env : Env) : M (list nat) :=
  offset ← Math_floor_random env 7150;
  response ← axios_get_categories env 100 offset;
  randomArray ← sampleSize env response NUM_CATEGORIES;
  mret (Api.id <$> randomArray).

Definition getCategoryIds (env : Env) : M unit :=
  ids ← selectCategoryIds env;
  _ ← getCategory env ids;
  mret tt.

(** ** Rendering (script.js, lines 85-115, 151-161) *)

(** A fresh cell, [data-category = j], text ['?']. *)
Definition new_td (j : nat) : Td :=
  {| data_category := j; innerText := "?"; classList := "" |}.

Definition new_tr (i : nat) : Tr :=
  {| tr_id := i; tr_cells := new_td <$> seq 0 NUM_CATEGORIES |}.

(** The head row reads [categories[i].title] for [i < NUM_CATEGORIES]; the
    body has [NUM_CLUES] rows of [NUM_CATEGORIES] cells.  [board.append] of
    the one [tbody] node inside the loop leaves a single [tbody]. *)
Fixpoint head_titles (cs : list Category) (indices : list nat)
    : M (list string) :=
  match indices with
  | [] => mret []
  | i :: rest =>
      category ← defined (cs !! i);
      titles ← head_titles cs rest;
      mret (title category :: titles)
  end.

Definition fillTable : M unit :=
  cs ← gets categories;
  titles ← head_titles cs (seq 0 NUM_CATEGORIES);
  modify (λ st, set_board (board st ++ [Thead titles]) st);;
  modify (λ st, set_board (board st ++ [Tbody (new_tr <$> seq 0 NUM_CLUES)]) st).

Definition showLoadingView : M unit :=
  modify (set_spinner_display "inline-block");;
  modify (set_btn_text "LOADING...").

Definition hideLoadingView : M unit :=
  modify (set_spinner_display "none");;
  modify (set_btn_text "RESTART").

Definition alert (msg : string) : M unit := modify (add_alert msg).

(** ** Clicks (script.js, lines 125-145) *)

(** The event handed to [handleClick]: [e.target] and the [id] of its parent
    element.  [fillTable] writes both attributes as decimal indices, and an
    array is indexed by such a string as by the number. *)
Record ClickEvent := mkClick {
  target : Td;
  parentElement_id : nat }.

(** [clue.showing = s] for the clue object [categories[categoryId].clues[clueId]] *)
Definition set_showing (categoryId clueId : nat) (s : Showing)
    (cs : list Category) : list Category :=
  alter (λ category,
           {| title := title category;
              clues := alter (λ clue, {| question := question clue;
                                         answer := answer clue;
                                         showing := s |})
                             clueId (clues category) |})
        categoryId cs.

(** [handleClick] returns [e.target] as the handler leaves it. *)
Definition handleClick (e : ClickEvent) : M Td :=
  let clicked := target e in
  let clueId := parentElement_id e in
  let categoryId := data_category clicked in
  cs ← gets categories;
  category ← defined (cs !! categoryId);
  clue ← defined (clues category !! clueId);
  match showing clue with
  | Hidden =>
      let clicked := {| data_category := data_category clicked;
                        innerText := question clue;
                        classList := classList clicked |} in
      modify (λ st, set_categories
                      (set_showing categoryId clueId Question (categories st)) st);;
      mret clicked
  | Question =>
      let clicked := {| data_category := data_category clicked;
                        innerText := answer clue;
                        classList := "answered" |} in
      modify (λ st, set_categories
                      (set_showing categoryId clueId Answer (categories st)) st);;
      mret clicked
  | Answer => mret clicked
  end.

(** ** Start and restart (script.js, lines 170-185) *)

Definition setupAndStart (env : Env) : M unit :=
  modify (set_board []);;
  modify (set_categories []);;
  showLoadingView;;
  catch (getCategoryIds env;; fillTable;; hideLoadingView)
        (λ _, alert "OOPS, The request failed. Please try again.").

(** The page before the first start, with nothing fetched and nothing
    rendered; the texts the HTML file gives the button and the spinner are not
    part of the script and are left empty. *)
Definition initial_state : State :=
  {| categories := []; board := []; spinner_display := ""; btn_text := "";
     alerts := []; net_log := []; random_calls := 0 |}.

(** [board.on('click', 'tbody', (e) => handleClick(e))]: one call per click; an
    exception ends that call only, the page keeps the state it has. *)
Fixpoint clicks (es : list ClickEvent) (st : State) : State :=
  match es with
  | [] => st
  | e :: rest => clicks rest (handleClick e st).2
  end.

(** The same cell clicked [n] times: the next event carries the cell as the
    previous call left it. *)
Fixpoint click_again (n : nat) (e : ClickEvent) (st : State)
    : ClickEvent * State :=
  match n with
  | 0 => (e, st)
  | S n' =>
      match handleClick e st with
      | (Returned clicked, st') =>
          click_again n' {| target := clicked;
                            parentElement_id := parentElement_id e |} st'
      | (Thrown _, st') => click_again n' e st'
      end
  end.

(** ** Vocabulary of the statements *)

(** The clue an address [(categoryIndex, clueIndex)] resolves to. *)
Definition clue_at (cs : list Category) (categoryIndex clueIndex : nat)
    : option Clue :=
  category ← cs !! categoryIndex; clues category !! clueIndex.

(** The address a click carries. *)
Definition categoryIndex (e : ClickEvent) : nat := data_category (target e).
Definition clueIndex (e : ClickEvent) : nat := parentElement_id e.

Definition stage (s : Showing) : nat :=
  match s with Hidden => 0 | Question => 1 | Answer => 2 end.

(** One forward transition of the reveal cycle. *)
Inductive advance : Showing → Showing → Prop :=
| advance_question : advance Hidden Question
| advance_answer : advance Question Answer.

(** The board shape the data model asks for. *)
Definition full_grid (cs : list Category) : Prop :=
  length cs = NUM_CATEGORIES ∧
  Forall (λ category, length (clues category) = NUM_CLUES) cs.

(** The category a payload is turned into when its clues are taken from the
    front. *)
Definition to_category (data : Api.category) : Category :=
  {| title := Api.title data;
     clues := project <$> take NUM_CLUES (Api.clues data) |}.

(** Network traffic of fetching [ids] one after the other, each request
    settled with its payload before the next is issued. *)
Definition fetch_log (ids : list nat) (payloads : list Api.category)
    : list NetEvent :=
  mjoin (zip_with (λ id data, [Issued (GetCategory id);
                               GotCategory (GetCategory id) data])
                  ids payloads).

(** The state in which [setupAndStart] starts the acquisition: board and
    categories emptied, loading view shown. *)
Definition loading (st : State) : State :=
  set_btn_text "LOADING..."
    (set_spinner_display "inline-block" (set_categories [] (set_board [] st))).

Definition failure_notice : string :=
  "OOPS, The request failed. Please try again.".

(** ** Clicks on the cells of the board (script.js, line 193)

    The delegated handler gets the clicked cell as [e.target]: the cell is a
    node of the board, so what [handleClick] writes to it is written to the
    board.  A cell is found by the position of its body among the children of
    the board, of its row in the body and of the cell in the row. *)
Record CellPath := mkPath {
  node_ix : nat;
  row_ix : nat;
  col_ix : nat }.

#[global] Instance CellPath_eq_dec : EqDecision CellPath.
Proof. solve_decision. Defined.

(** The cell at a path, with the [id] of its parent row. *)
Definition cell_at (b : list BoardNode) (p : CellPath) : option (nat * Td) :=
  match b !! node_ix p with
  | Some (Tbody rows) =>
      row ← rows !! row_ix p;
      td ← tr_cells row !! col_ix p;
      Some (tr_id row, td)
  | _ => None
  end.

(** The board with the cell at a path replaced. *)
Definition put_cell (p : CellPath) (td : Td) (b : list BoardNode)
    : list BoardNode :=
  alter (λ node,
           match node with
           | Tbody rows =>
               Tbody (alter (λ row, {| tr_id := tr_id row;
                                       tr_cells := <[col_ix p := td]> (tr_cells row) |})
                            (row_ix p) rows)
           | Thead titles => Thead titles
           end)
        (node_ix p) b.

(** A click on the cell at [p] (no event where the board has no cell). *)
Definition click_cell (p : CellPath) : M unit :=
  b ← gets board;
  match cell_at b p with
  | Some (parent_id, td) =>
      clicked ← handleClick {| target := td; parentElement_id := parent_id |};
      modify (λ st, set_board (put_cell p clicked (board st)) st)
  | None => mret tt
  end.

Fixpoint cell_clicks (ps : list CellPath) (st : State) : State :=
  match ps with
  | [] => st
  | p :: rest => cell_clicks rest (click_cell p st).2
  end.

(** ** More vocabulary *)

(** The flag a click leaves where it finds [s]. *)
Definition next (s : Showing) : Showing :=
  match s with Hidden => Question | Question => Answer | Answer => Answer end.

(** A clue after [n] clicks on it. *)
Definition clicked_times (n : nat) (clue : Clue) : Clue :=
  {| question := question clue; answer := answer clue;
     showing := Nat.iter n next (showing clue) |}.

(** How many of the clicks [es] carry the address [(i, j)]. *)
Definition hits (i j : nat) (es : list ClickEvent) : nat :=
  length (filter (λ e, (categoryIndex e, clueIndex e) = (i, j)) es).

(** What the cell of a clue shows: the text and the class. *)
Definition display (clue : Clue) : string :=
  match showing clue with
  | Hidden => "?"
  | Question => question clue
  | Answer => answer clue
  end.

Definition cell_class (clue : Clue) : string :=
  match showing clue with Answer => "answered" | _ => "" end.

(** The board shows the session: every cell sits in the body that is the
    second child of the board, inside the grid, carries its own position as
    its address, and shows what the clue at that address is at (a cell whose
    address resolves to no clue shows the fresh ['?']). *)
Definition board_shows (st : State) : Prop :=
  ∀ p parent_id td,
    cell_at (board st) p = Some (parent_id, td) →
    node_ix p = 1 ∧ row_ix p < NUM_CLUES ∧ col_ix p < NUM_CATEGORIES ∧
    parent_id = row_ix p ∧ data_category td = col_ix p ∧
    match clue_at (categories st) (col_ix p) (row_ix p) with
    | Some clue => innerText td = display clue ∧ classList td = cell_class clue
    | None => innerText td = "?" ∧ classList td = ""
    end.

(** The requests issued in a stretch of network traffic, in order. *)
Definition issued (log : list NetEvent) : list Request :=
  omap (λ ev, match ev with Issued r => Some r | _ => None end) log.

(** ** Starts in flight (script.js, lines 31-75, 170-189)

    [setupAndStart] above runs the promise chain to its end in one piece:
    that is what a start does when nothing else happens before its chain
    ends.  On the page the handler returns at the first [await], the button
    stays clickable, and whatever happens while a request is pending (another
    start, a click) runs in between.  This section cuts the chain at its
    [await]s (lines 34 and 58): a start in flight is a [Task], the point where
    its chain is suspended together with the answer the source has given to
    the pending request, and a page is the state plus the tasks in flight. *)
Inductive Task :=
| AwaitCategories (r : Request) (answer : option (list Api.entry))
| AwaitCategory (id : nat) (answer : option Api.category) (rest : list nat).

(** The two ends of [getCategoryIds().then(...).catch(...)]. *)
Definition chain_resolved : M unit :=
  catch (fillTable;; hideLoadingView) (λ _, alert failure_notice).

Definition chain_rejected : M unit := alert failure_notice.

(** Lines 59-72: what the loop does with the answer to one request. *)
Definition store_category (response : Api.category) : M unit :=
  randomClues ← defined (Lodash.chunk (Api.clues response) NUM_CLUES !! 0);
  let clues := project <$> randomClues in
  modify (λ st, set_categories
                  (categories st ++ [ {| title := Api.title response;
                                         clues := clues |} ]) st).

(** The promise of a request settles: the answer is logged and handed to the
    chain, or thrown into it. *)
Definition settle_categories (r : Request) (answer : option (list Api.entry))
    : M (list Api.entry) :=
  match answer with
  | Some data => modify (log_net (GotCategories r data));; mret data
  | None => modify (log_net (Failed r));; throw NetworkError
  end.

Definition settle_category (id : nat) (answer : option Api.category)
    : M Api.category :=
  match answer with
  | Some data => modify (log_net (GotCategory (GetCategory id) data));; mret data
  | None => modify (log_net (Failed (GetCategory id)));; throw NetworkError
  end.

(** The loop of [getCategory] turning to the ids [ids]: it sends the request
    for the first and is suspended at line 58; with no id left it returns,
    [getCategoryIds] resolves and the chain runs its [then].  The result is
    the task now in flight, or how the promise of [getCategoryIds] ended. *)
Definition visit (env : Env) (ids : list nat) : M (Task + Outcome unit) :=
  match ids with
  | [] => chain_resolved;; mret (inr (Returned tt))
  | id :: rest =>
      modify (log_net (Issued (GetCategory id)));;
      history ← gets net_log;
      mret (inl (AwaitCategory id (category_endpoint env history id) rest))
  end.

(** The pending request of a task settles and its chain runs on to the next
    [await] or to its end; an exception on the way rejects the promise of
    [getCategoryIds] and the chain runs its [catch]. *)
Definition resume (env : Env) (t : Task) : M (Task + Outcome unit) :=
  catch
    match t with
    | AwaitCategories r answer =>
        response ← settle_categories r answer;
        randomArray ← sampleSize env response NUM_CATEGORIES;
        visit env (Api.id <$> randomArray)
    | AwaitCategory id answer rest =>
        response ← settle_category id answer;
        store_category response;;
        visit env rest
    end
    (λ x, chain_rejected;; mret (inr (Thrown x))).

(** [setupAndStart] up to the first [await] (line 34): the board and the
    array are emptied, the loading view is shown, the candidates request is
    sent. *)
Definition start (env : Env) : M Task :=
  modify (set_board []);;
  modify (set_categories []);;
  showLoadingView;;
  offset ← Math_floor_random env 7150;
  modify (log_net (Issued (GetCategories 100 offset)));;
  history ← gets net_log;
  mret (AwaitCategories (GetCategories 100 offset)
                        (categories_endpoint env history 100 offset)).

(** The page: the state, the starts in flight (oldest first), and how the
    promises of [getCategoryIds] that have settled ended (oldest first). *)
Record Page := mkPage {
  page_state : State;
  in_flight : list Task;
  builds_ended : list (Outcome unit) }.

(** What can happen on the page: the start button is clicked (line 189), the
    pending request of the [k]-th start in flight settles, a cell is clicked
    (line 193). *)
Inductive PageEvent :=
| StartClicked
| Settled (k : nat)
| CellClicked (p : CellPath).

Definition page_step (env : Env) (ev : PageEvent) (page : Page) : Page :=
  match ev with
  | StartClicked =>
      match start env (page_state page) with
      | (Returned t, st') =>
          mkPage st' (in_flight page ++ [t]) (builds_ended page)
      | (Thrown _, st') => mkPage st' (in_flight page) (builds_ended page)
      end
  | Settled k =>
      match in_flight page !! k with
      | None => page
      | Some t =>
          match resume env t (page_state page) with
          | (Returned (inl t'), st') =>
              mkPage st' (<[k := t']> (in_flight page)) (builds_ended page)
          | (Returned (inr o), st') =>
              mkPage st' (delete k (in_flight page)) (builds_ended page ++ [o])
          | (Thrown x, st') =>
              mkPage st' (delete k (in_flight page))
                     (builds_ended page ++ [Thrown x])
          end
      end
  | CellClicked p =>
      mkPage (click_cell p (page_state page)).2 (in_flight page)
             (builds_ended page)
  end.

Fixpoint page_run (env : Env) (evs : list PageEvent) (page : Page) : Page :=
  match evs with
  | [] => page
  | ev :: rest => page_run env rest (page_step env ev page)
  end.

(** A start that runs alone: the button is clicked on a page with no start
    in flight, and the only events that follow are [n] settlements of the
    requests of this start. *)
Definition start_alone (env : Env) (n : nat) (st : State) : Page :=
  page_run env (StartClicked :: replicate n (Settled 0)) (mkPage st [] []).

(** The loop over [ids] and the end of the chain in one piece: the state
    left and how the promise of [getCategoryIds] ended. *)
Definition finish (env : Env) (ids : list nat) (st : State)
    : State * Outcome unit :=
  match getCategory env ids st with
  | (Returned _, st1) => ((chain_resolved st1).2, Returned tt)
  | (Thrown x, st1) => ((chain_rejected st1).2, Thrown x)
  end.

(** The page after a step of a chain that was alone in flight. *)
Definition page_after (ended : list (Outcome unit))
    (r : Outcome (Task + Outcome unit) * State) : Page :=
  match r with
  | (Returned (inl t), st) => mkPage st [t] ended
  | (Returned (inr o), st) => mkPage st [] (ended ++ [o])
  | (Thrown x, st) => mkPage st [] (ended ++ [Thrown x])
  end.

(** ** Sample sources and boards, for evaluating the model *)

Definition sample_clue (n : nat) : Api.clue :=
  Api.mkClue ("question " +:+ pretty n) ("answer " +:+ pretty n)
             [("value", "200"); ("airdate", "1985-02-08")].

(** Category [id] with [size] clues. *)
Definition sample_category (size id : nat) : Api.category :=
  Api.mkCategory ("category " +:+ pretty id) (sample_clue <$> seq (10 * id) size).

(** A source that lists [candidates] categories from the offset on, answers a
    category request with [clue_count id] clues, and rejects the ids flagged
    by [down]. *)
Definition sample_env (candidates : nat) (clue_count : nat → nat)
    (down : nat → bool) : Env :=
  {| random_outcome := λ k, 3 * k + 1;
     categories_endpoint := λ _ count offset,
       Some ((λ i, Api.mkEntry (offset + i) [("title", "...")])
               <$> seq 0 (count `min` candidates));
     category_endpoint := λ _ id,
       if down id then None else Some (sample_category (clue_count id) id) |}.

(** 100 candidates, 10 clues in every category. *)
Definition full_env : Env := sample_env 100 (λ _, 10) (λ _, false).

(** As [full_env], but category 5 has only 3 clues. *)
Definition short_env : Env :=
  sample_env 100 (λ id, if decide (id = 5) then 3 else 10) (λ _, false).

(** The source lists only 2 candidates. *)
Definition scarce_env : Env := sample_env 2 (λ _, 10) (λ _, false).

(** As [full_env], but the request for category 13 is rejected. *)
Definition flaky_env : Env :=
  sample_env 100 (λ _, 10) (λ id, bool_decide (id = 13)).

(** Every category comes as five clues followed by the same five again. *)
Definition repeating_env : Env :=
  {| random_outcome := λ k, 3 * k + 1;
     categories_endpoint := categories_endpoint full_env;
     category_endpoint := λ _ id,
       Some (Api.mkCategory ("category " +:+ pretty id)
               (sample_clue <$> (seq (10 * id) 5 ++ seq (10 * id) 5))) |}.

(** The page after a start against [full_env]. *)
Definition full_page : State :=
  Eval vm_compute in (setupAndStart full_env initial_state).2.

(** A click on the cell of category 2, row 3, as [fillTable] made it. *)
Definition sample_click : ClickEvent :=
  {| target := new_td 2; parentElement_id := 3 |}.

(** Two starts that overlap, each request answered in turn. *)
Definition overlapping_starts : list PageEvent :=
  [StartClicked; StartClicked;
   Settled 0; Settled 1; Settled 0; Settled 1; Settled 0; Settled 1;
   Settled 0; Settled 1; Settled 0; Settled 1; Settled 0; Settled 1;
   Settled 0; Settled 0].

(** * Properties *)

(** ** The monad *)

Lemma bind_returned {A B} (m : M A) (k : A → M B) st a st' :
  m st = (Returned a, st') → (m ≫= k) st = k a st'.
Proof. intros H. unfold mbind, M_bind, bind. by rewrite H. Qed.

Lemma bind_thrown {A B} (m : M A) (k : A → M B) st e st' :
  m st = (Thrown e, st') → (m ≫= k) st = (Thrown e, st').
Proof. intros H. unfold mbind, M_bind, bind. by rewrite H. Qed.

(** ** Addresses and the [showing] update *)

Lemma clue_at_Some cs i j clue :
  clue_at cs i j = Some clue ↔
  ∃ category, cs !! i = Some category ∧ clues category !! j = Some clue.
Proof.
  unfold clue_at. destruct (cs !! i) as [c|]; simpl.
  - split; [eauto|]. by intros (c' & [= <-] & ?).
  - split; [done|]. by intros (c' & ? & ?).
Qed.

Lemma clue_at_None cs i j :
  clue_at cs i j = None ↔
  length cs ≤ i ∨ ∃ category, cs !! i = Some category ∧ length (clues category) ≤ j.
Proof.
  unfold clue_at. destruct (cs !! i) as [c|] eqn:Hc; simpl.
  - rewrite lookup_ge_None. split; [eauto|].
    intros [Hlen | (c' & ? & ?)]; [|congruence].
    apply lookup_ge_None in Hlen. congruence.
  - apply lookup_ge_None in Hc. split; [eauto|done].
Qed.

Lemma full_grid_clue_at cs i j :
  full_grid cs → i < NUM_CATEGORIES → j < NUM_CLUES → is_Some (clue_at cs i j).
Proof.
  intros [Hlen Hall] Hi Hj.
  destruct (lookup_lt_is_Some_2 cs i) as [c Hc]; [lia|].
  rewrite Forall_lookup in Hall. specialize (Hall _ _ Hc). simpl in Hall.
  destruct (lookup_lt_is_Some_2 (clues c) j) as [clue Hclue]; [lia|].
  exists clue. apply clue_at_Some. eauto.
Qed.

Lemma clue_at_set_showing_eq cs i j s :
  clue_at (set_showing i j s cs) i j
  = (λ clue, mkClue (question clue) (answer clue) s) <$> clue_at cs i j.
Proof.
  unfold clue_at, set_showing. rewrite list_lookup_alter_eq.
  destruct (cs !! i) as [c|]; simpl; [|done].
  by rewrite list_lookup_alter_eq.
Qed.

Lemma clue_at_set_showing_ne cs i j s i' j' :
  (i', j') ≠ (i, j) → clue_at (set_showing i j s cs) i' j' = clue_at cs i' j'.
Proof.
  intros Hne. unfold clue_at, set_showing.
  destruct (decide (i = i')) as [->|Hi].
  - rewrite list_lookup_alter_eq. destruct (cs !! i') as [c|]; simpl; [|done].
    rewrite list_lookup_alter_ne; [done|congruence].
  - by rewrite list_lookup_alter_ne.
Qed.

Lemma set_showing_length cs i j s : length (set_showing i j s cs) = length cs.
Proof. apply length_alter. Qed.

Lemma set_showing_titles cs i j s :
  title <$> set_showing i j s cs = title <$> cs.
Proof.
  unfold set_showing. apply list_eq; intros k. rewrite !list_lookup_fmap.
  destruct (decide (i = k)) as [->|Hne].
  - rewrite list_lookup_alter_eq. by destruct (cs !! k).
  - by rewrite list_lookup_alter_ne.
Qed.

Lemma set_showing_clue_counts cs i j s :
  (length ∘ clues) <$> set_showing i j s cs = (length ∘ clues) <$> cs.
Proof.
  unfold set_showing. apply list_eq; intros k. rewrite !list_lookup_fmap.
  destruct (decide (i = k)) as [->|Hne].
  - rewrite list_lookup_alter_eq. destruct (cs !! k); simpl; [|done].
    by rewrite length_alter.
  - by rewrite list_lookup_alter_ne.
Qed.

Lemma set_showing_full_grid cs i j s :
  full_grid cs → full_grid (set_showing i j s cs).
Proof.
  intros [Hlen Hall]. split; [by rewrite set_showing_length|].
  apply Forall_fmap with (f := length ∘ clues) (P := λ n, n = NUM_CLUES).
  rewrite set_showing_clue_counts. by apply Forall_fmap.
Qed.

(** ** What one call of [handleClick] does *)

Lemma handleClick_resolved e st clue :
  clue_at (categories st) (categoryIndex e) (clueIndex e) = Some clue →
  handleClick e st =
    match showing clue with
    | Hidden =>
        (Returned (mkTd (categoryIndex e) (question clue) (classList (target e))),
         set_categories
           (set_showing (categoryIndex e) (clueIndex e) Question (categories st)) st)
    | Question =>
        (Returned (mkTd (categoryIndex e) (answer clue) "answered"),
         set_categories
           (set_showing (categoryIndex e) (clueIndex e) Answer (categories st)) st)
    | Answer => (Returned (target e), st)
    end.
Proof.
  intros (category & Hcat & Hclue)%clue_at_Some.
  unfold handleClick, categoryIndex, clueIndex in *.
  unfold mbind, M_bind, bind, gets, defined, mret, M_ret, ret, modify; simpl.
  rewrite Hcat; simpl. rewrite Hclue; simpl.
  by destruct (showing clue).
Qed.

Lemma handleClick_unresolved e st :
  clue_at (categories st) (categoryIndex e) (clueIndex e) = None →
  handleClick e st = (Thrown TypeError, st).
Proof.
  unfold clue_at, handleClick, categoryIndex, clueIndex.
  unfold mbind at 2 3 4, M_bind, bind, gets, defined, mret, M_ret, ret, throw; simpl.
  destruct (categories st !! _) as [c|]; simpl; [|done].
  by intros ->.
Qed.

Lemma handleClick_other_fields e st :
  let st' := (handleClick e st).2 in
  board st' = board st ∧ spinner_display st' = spinner_display st ∧
  btn_text st' = btn_text st ∧ alerts st' = alerts st ∧
  net_log st' = net_log st ∧ random_calls st' = random_calls st.
Proof.
  destruct (clue_at (categories st) (categoryIndex e) (clueIndex e))
    as [clue|] eqn:Hat.
  - rewrite (handleClick_resolved _ _ _ Hat). by destruct (showing clue).
  - by rewrite (handleClick_unresolved _ _ Hat).
Qed.

(** What a click does to the clue at any address [(i, j)]: the addressed clue
    moves at most one step forward, every other clue is unchanged. *)
Lemma handleClick_step e st i j clue :
  clue_at (categories st) i j = Some clue →
  ∃ clue', clue_at (categories (handleClick e st).2) i j = Some clue' ∧
           question clue' = question clue ∧ answer clue' = answer clue ∧
           (showing clue' = showing clue ∨ advance (showing clue) (showing clue')).
Proof.
  intros Hij.
  destruct (clue_at (categories st) (categoryIndex e) (clueIndex e))
    as [target_clue|] eqn:Hat.
  - rewrite (handleClick_resolved _ _ _ Hat).
    destruct (decide ((i, j) = (categoryIndex e, clueIndex e))) as [[= -> ->]|Hne].
    + assert (target_clue = clue) as -> by congruence.
      destruct (showing clue) eqn:Hs; simpl.
      * rewrite clue_at_set_showing_eq, Hij. eexists; repeat split; simpl.
        right. constructor.
      * rewrite clue_at_set_showing_eq, Hij. eexists; repeat split; simpl.
        right. constructor.
      * exists clue. rewrite Hs. auto.
    + exists clue. destruct (showing target_clue); simpl;
        rewrite ?clue_at_set_showing_ne by done; auto.
  - rewrite (handleClick_unresolved _ _ Hat). exists clue. auto.
Qed.

Lemma advance_stage s s' : advance s s' → stage s' = S (stage s).
Proof. by destruct 1. Qed.

Lemma rtc_advance_stage s s' : rtc advance s s' → stage s ≤ stage s'.
Proof.
  induction 1 as [|s1 s2 s3 Hstep _ IH]; [done|].
  apply advance_stage in Hstep. lia.
Qed.

Lemma rtc_advance_Answer s : rtc advance Answer s → s = Answer.
Proof.
  intros H%rtc_advance_stage. destruct s; simpl in H; (done || lia).
Qed.

(** ** The reveal law *)

(** C2: at a valid address the call follows the three-state law.  From
    [Hidden] the clicked cell shows the question and the clue becomes
    [Question]; from [Question] the cell shows the answer and the clue becomes
    [Answer]; from [Answer] the cell and the whole state are left as they
    are, so the clue stays at [Answer]. *)
Theorem handleClick_three_state_law (e : ClickEvent) (st : State) (clue : Clue) :
  clue_at (categories st) (categoryIndex e) (clueIndex e) = Some clue →
  ∃ clicked st',
    handleClick e st = (Returned clicked, st') ∧
    match showing clue with
    | Hidden =>
        innerText clicked = question clue ∧
        showing <$> clue_at (categories st') (categoryIndex e) (clueIndex e)
          = Some Question
    | Question =>
        innerText clicked = answer clue ∧
        showing <$> clue_at (categories st') (categoryIndex e) (clueIndex e)
          = Some Answer
    | Answer =>
        clicked = target e ∧ st' = st ∧
        showing <$> clue_at (categories st') (categoryIndex e) (clueIndex e)
          = Some Answer
    end.
Proof.
  intros Hat. rewrite (handleClick_resolved _ _ _ Hat).
  destruct (showing clue) eqn:Hs; do 2 eexists; (split; [reflexivity|]); simpl.
  - by rewrite clue_at_set_showing_eq, Hat.
  - by rewrite clue_at_set_showing_eq, Hat.
  - by rewrite Hat; simpl; rewrite Hs.
Qed.

Lemma handleClick_three_state_law_witness :
  clue_at (categories full_page) (categoryIndex sample_click)
          (clueIndex sample_click)
    = Some (mkClue "question 133" "answer 133" Hidden) ∧
  ∃ clicked st',
    handleClick sample_click full_page = (Returned clicked, st') ∧
    innerText clicked = "question 133" ∧
    showing <$> clue_at (categories st') 2 3 = Some Question.
Proof.
  split; [reflexivity|].
  exact (handleClick_three_state_law sample_click full_page
           (mkClue "question 133" "answer 133" Hidden) eq_refl).
Defined.

(** ** Addresses that resolve to no clue *)

(** C4, as the code has it: for an address out of range ([categoryIndex] not
    below the number of categories, or [clueIndex] not below the number of
    clues of the addressed category) the call throws a [TypeError], before
    any assignment: the whole state is left unchanged. *)
Theorem handleClick_out_of_range_throws (e : ClickEvent) (st : State) :
  (length (categories st) ≤ categoryIndex e ∨
   ∃ category, categories st !! categoryIndex e = Some category ∧
               length (clues category) ≤ clueIndex e) →
  handleClick e st = (Thrown TypeError, st).
Proof. intros H. by apply handleClick_unresolved, clue_at_None. Qed.

Lemma handleClick_out_of_range_throws_witness :
  length (categories full_page) ≤ 6 ∧
  handleClick (mkClick (new_td 6) 0) full_page = (Thrown TypeError, full_page).
Proof.
  split; [vm_compute; lia|].
  apply (handleClick_out_of_range_throws (mkClick (new_td 6) 0) full_page).
  left. vm_compute. lia.
Defined.

(** The claim of C4 as written fails: on the rendered 6 x 5 board a call with
    clue index 5 is out of range and is not a silent no-op, it ends in an
    exception. *)
Lemma handleClick_out_of_range_not_silent :
  length (categories full_page) = 6 ∧
  Forall (λ category, length (clues category) ≤ 5) (categories full_page) ∧
  ¬ ∃ clicked, handleClick (mkClick (new_td 2) 5) full_page
               = (Returned clicked, full_page).
Proof.
  split; [reflexivity|]. split.
  - vm_compute. repeat constructor.
  - intros [clicked H]. vm_compute in H. discriminate H.
Qed.

(** ** Monotonicity of [showing] *)

(** C8: under any sequence of clicks, at any addresses, the [showing] flag of
    every clue moves only forward along Hidden -> Question -> Answer: the
    clue keeps its place, its flag is reached by forward transitions alone,
    its stage never decreases, and from [Answer] it stays [Answer]. *)
Theorem showing_moves_forward_only (es : list ClickEvent) (st : State)
    (i j : nat) (clue : Clue) :
  clue_at (categories st) i j = Some clue →
  ∃ clue', clue_at (categories (clicks es st)) i j = Some clue' ∧
           rtc advance (showing clue) (showing clue') ∧
           stage (showing clue) ≤ stage (showing clue') ∧
           (showing clue = Answer → showing clue' = Answer).
Proof.
  intros Hat.
  assert (∃ clue', clue_at (categories (clicks es st)) i j = Some clue' ∧
                   rtc advance (showing clue) (showing clue'))
    as (clue' & Hat' & Hrtc).
  { revert st clue Hat. induction es as [|e es IH]; intros st clue Hat; simpl.
    - by exists clue.
    - destruct (handleClick_step e st i j clue Hat)
        as (clue1 & Hat1 & _ & _ & Hstep).
      destruct (IH _ _ Hat1) as (clue' & Hat' & Hrtc).
      exists clue'. split; [done|].
      destruct Hstep as [<-|Hstep]; [done|]. by eapply rtc_l. }
  exists clue'. repeat split; [done..| |].
  - by apply rtc_advance_stage.
  - intros Hs. rewrite Hs in Hrtc. by apply rtc_advance_Answer.
Qed.

Lemma showing_moves_forward_only_witness :
  clue_at (categories full_page) 2 3
    = Some (mkClue "question 133" "answer 133" Hidden) ∧
  ∃ clue',
    clue_at (categories (clicks [sample_click; mkClick (new_td 0) 0;
                                 sample_click; sample_click] full_page)) 2 3
      = Some clue' ∧
    rtc advance Hidden (showing clue') ∧
    0 ≤ stage (showing clue') ∧
    (Hidden = Answer → showing clue' = Answer).
Proof.
  split; [reflexivity|].
  exact (showing_moves_forward_only
           [sample_click; mkClick (new_td 0) 0; sample_click; sample_click]
           full_page 2 3 (mkClue "question 133" "answer 133" Hidden) eq_refl).
Defined.

(** ** Frame of a click *)

(** C9: a click at a valid address changes at most the [showing] flag of the
    addressed clue.  Titles, the number and order of categories and of the
    clues of each category, every clue at another address, and the question
    and answer of the addressed clue are as before. *)
Theorem handleClick_frame (e : ClickEvent) (st : State) (clue : Clue) :
  clue_at (categories st) (categoryIndex e) (clueIndex e) = Some clue →
  let cs' := categories (handleClick e st).2 in
  title <$> cs' = title <$> categories st ∧
  length cs' = length (categories st) ∧
  (length ∘ clues) <$> cs' = (length ∘ clues) <$> categories st ∧
  (∀ i j, (i, j) ≠ (categoryIndex e, clueIndex e) →
          clue_at cs' i j = clue_at (categories st) i j) ∧
  ∃ clue', clue_at cs' (categoryIndex e) (clueIndex e) = Some clue' ∧
           question clue' = question clue ∧ answer clue' = answer clue.
Proof.
  intros Hat cs'. subst cs'.
  destruct (handleClick_step e st _ _ clue Hat) as (clue' & Hat' & Hq & Ha & _).
  assert (∀ i j, (i, j) ≠ (categoryIndex e, clueIndex e) →
                 clue_at (categories (handleClick e st).2) i j
                 = clue_at (categories st) i j) as Hothers.
  { intros i j Hne. rewrite (handleClick_resolved _ _ _ Hat).
    destruct (showing clue); simpl; by rewrite ?clue_at_set_showing_ne. }
  split_and!; [..|done|by eauto];
    rewrite (handleClick_resolved _ _ _ Hat); destruct (showing clue); simpl;
    by rewrite ?set_showing_titles, ?set_showing_length,
               ?set_showing_clue_counts.
Qed.

Lemma handleClick_frame_witness :
  clue_at (categories full_page) (categoryIndex sample_click)
          (clueIndex sample_click)
    = Some (mkClue "question 133" "answer 133" Hidden) ∧
  let cs' := categories (handleClick sample_click full_page).2 in
  title <$> cs' = title <$> categories full_page ∧
  length cs' = length (categories full_page) ∧
  (length ∘ clues) <$> cs' = (length ∘ clues) <$> categories full_page ∧
  (∀ i j, (i, j) ≠ (2, 3) → clue_at cs' i j = clue_at (categories full_page) i j) ∧
  ∃ clue', clue_at cs' 2 3 = Some clue' ∧
           question clue' = "question 133" ∧ answer clue' = "answer 133".
Proof.
  split; [reflexivity|].
  exact (handleClick_frame sample_click full_page
           (mkClue "question 133" "answer 133" Hidden) eq_refl).
Defined.

(** ** Saturation *)

Lemma click_again_add a b e st :
  click_again (a + b) e st
  = click_again b (click_again a e st).1 (click_again a e st).2.
Proof.
  revert e st. induction a as [|a IH]; intros e st; simpl; [done|].
  destruct (handleClick e st) as [[clicked|x] st']; apply IH.
Qed.

Lemma click_again_Answer n e st clue :
  clue_at (categories st) (categoryIndex e) (clueIndex e) = Some clue →
  showing clue = Answer →
  click_again n e st = (e, st).
Proof.
  intros Hat Hs. induction n as [|n IH]; simpl; [done|].
  rewrite (handleClick_resolved _ _ _ Hat), Hs.
  by destruct e.
Qed.

Lemma click_again_twice e st clue :
  clue_at (categories st) (categoryIndex e) (clueIndex e) = Some clue →
  showing clue = Hidden →
  clue_at (categories (click_again 2 e st).2) (categoryIndex e) (clueIndex e)
    = Some (mkClue (question clue) (answer clue) Answer) ∧
  (click_again 2 e st).1
    = mkClick (mkTd (categoryIndex e) (answer clue) "answered")
              (parentElement_id e).
Proof.
  intros Hat Hs. simpl.
  rewrite (handleClick_resolved _ _ _ Hat), Hs.
  set (st1 := set_categories _ st).
  set (e1 := mkClick _ _).
  assert (clue_at (categories st1) (categoryIndex e1) (clueIndex e1)
          = Some (mkClue (question clue) (answer clue) Question)) as Hat1.
  { change (clue_at (set_showing (categoryIndex e) (clueIndex e) Question
                                 (categories st))
                    (categoryIndex e) (clueIndex e)
            = Some (mkClue (question clue) (answer clue) Question)).
    by rewrite clue_at_set_showing_eq, Hat. }
  rewrite (handleClick_resolved _ _ _ Hat1). simpl. split; [|done].
  change (clue_at (set_showing (categoryIndex e1) (clueIndex e1) Answer
                               (categories st1))
                  (categoryIndex e1) (clueIndex e1)
          = Some (mkClue (question clue) (answer clue) Answer)).
  by rewrite clue_at_set_showing_eq, Hat1.
Qed.

(** C10: at a valid address whose clue is [Hidden], clicking the cell [n]
    times, for any [n >= 2], leaves the page (and the cell) exactly as two
    clicks do, and that is the state saturated at [Answer]: the clue at the
    address has its question and answer and [showing = Answer], and the cell
    shows the answer with the class ['answered']. *)
Theorem click_again_saturates (n : nat) (e : ClickEvent) (st : State)
    (clue : Clue) :
  clue_at (categories st) (categoryIndex e) (clueIndex e) = Some clue →
  showing clue = Hidden →
  2 ≤ n →
  click_again n e st = click_again 2 e st ∧
  clue_at (categories (click_again n e st).2) (categoryIndex e) (clueIndex e)
    = Some (mkClue (question clue) (answer clue) Answer) ∧
  innerText (target (click_again n e st).1) = answer clue ∧
  classList (target (click_again n e st).1) = "answered".
Proof.
  intros Hat Hs Hn.
  destruct (click_again_twice e st clue Hat Hs) as [Hat2 Hcell].
  assert (click_again n e st = click_again 2 e st) as Heq.
  { replace n with (2 + (n - 2)) by lia.
    rewrite click_again_add.
    set (two := click_again 2 e st) in *.
    assert (clue_at (categories two.2) (categoryIndex two.1) (clueIndex two.1)
            = Some (mkClue (question clue) (answer clue) Answer)) as Hat2'.
    { by rewrite Hcell. }
    rewrite (click_again_Answer _ _ _ _ Hat2' eq_refl). by destruct two. }
  rewrite Heq. split_and!; [done|exact Hat2|by rewrite Hcell..].
Qed.

Lemma click_again_saturates_witness :
  clue_at (categories full_page) (categoryIndex sample_click)
          (clueIndex sample_click)
    = Some (mkClue "question 133" "answer 133" Hidden) ∧
  2 ≤ 7 ∧
  click_again 7 sample_click full_page = click_again 2 sample_click full_page ∧
  clue_at (categories (click_again 7 sample_click full_page).2) 2 3
    = Some (mkClue "question 133" "answer 133" Answer) ∧
  innerText (target (click_again 7 sample_click full_page).1) = "answer 133".
Proof.
  split; [reflexivity|]. split; [lia|].
  destruct (click_again_saturates 7 sample_click full_page
              (mkClue "question 133" "answer 133" Hidden))
    as (Heq & Hat & Htext & _); [reflexivity..|lia|].
  split_and!; [exact Heq|exact Hat|exact Htext].
Defined.

(** ** The lodash helpers *)

Lemma chunk_head {A} (l : list A) (size : nat) :
  1 ≤ size →
  Lodash.chunk l size !! 0
  = match l with [] => None | _ :: _ => Some (take size l) end.
Proof.
  intros Hsize. unfold Lodash.chunk.
  destruct (decide (size < 1)) as [?|_]; [lia|].
  rewrite list_lookup_fmap. destruct l as [|x l]; simpl length.
  - rewrite Nat.div_small by lia. done.
  - assert (0 < (S (length l) + size - 1) / size) as Hpos
      by (apply Nat.div_str_pos; lia).
    rewrite lookup_seq_lt by done. done.
Qed.

Lemma swap_length {A} (i r : nat) (l : list A) :
  length (Lodash.swap i r l) = length l.
Proof.
  unfold Lodash.swap. destruct (l !! r), (l !! i); try done.
  by rewrite !length_insert.
Qed.


Lemma shuffle_loop_length {A} draw last i n (l : list A) :
  length (Lodash.shuffle_loop draw last i n l) = length l.
Proof.
  revert i l. induction n as [|n IH]; intros i l; simpl; [done|].
  by rewrite IH, swap_length.
Qed.


(** [_.sampleSize] picks [min n length] elements at distinct positions: what
    it returns, followed by what it leaves, is a permutation of the array. *)
Lemma sampleSize_length {A} draw (l : list A) n :
  length (Lodash.sampleSize draw l n) = n `min` length l.
Proof.
  unfold Lodash.sampleSize, Lodash.shuffleSelf.
  rewrite length_take, shuffle_loop_length. lia.
Qed.


(** ** One category fetch *)

Ltac run_monad :=
  unfold mbind, M_bind, bind, mret, M_ret, ret, gets, modify, throw, defined;
  simpl.

Lemma getCategory_body_unfold env id st :
  getCategory_body env id st =
    let st1 := log_net (Issued (GetCategory id)) st in
    match category_endpoint env (net_log st1) id with
    | None => (Thrown NetworkError, log_net (Failed (GetCategory id)) st1)
    | Some data =>
        let st2 := log_net (GotCategory (GetCategory id) data) st1 in
        match Api.clues data with
        | [] => (Thrown TypeError, st2)
        | _ :: _ =>
            (Returned tt, set_categories (categories st ++ [to_category data]) st2)
        end
    end.
Proof.
  unfold getCategory_body, axios_get_category. run_monad.
  destruct (category_endpoint env _ id) as [data|]; simpl; [|done].
  rewrite chunk_head by (unfold NUM_CLUES; lia).
  unfold to_category. by destruct (Api.clues data).
Qed.

(** A payload without clues: [_.chunk] gives [[]], its slot [0] is
    [undefined], and [.map] on it throws. *)
Lemma getCategory_body_no_clues env id st data :
  category_endpoint env (net_log st ++ [Issued (GetCategory id)]) id = Some data →
  Api.clues data = [] →
  (getCategory_body env id st).1 = Thrown TypeError ∧
  categories (getCategory_body env id st).2 = categories st.
Proof.
  intros Hdata Hclues. rewrite getCategory_body_unfold. simpl.
  by rewrite Hdata, Hclues.
Qed.

Lemma getCategory_body_other_fields env id st :
  let st' := (getCategory_body env id st).2 in
  board st' = board st ∧ spinner_display st' = spinner_display st ∧
  btn_text st' = btn_text st ∧ alerts st' = alerts st ∧
  random_calls st' = random_calls st.
Proof.
  rewrite getCategory_body_unfold. simpl.
  destruct (category_endpoint env _ id) as [data|]; [|done].
  by destruct (Api.clues data).
Qed.

(** C5: for every payload the source answers with, the fetch takes the clues
    from the front of the payload, at most [NUM_CLUES] of them and in payload
    order, and reduces each to its question and answer with [showing] at
    [Hidden]: it appends one category with exactly these clues (a payload
    without any clue gives no category, the call throws).  A payload that
    starts with five clues followed by any others (ten clues, say) gives
    exactly those five.  No random number is drawn: the outcome is the same
    under every other random source. *)
Theorem getCategory_body_first_clues (env : Env) (id : nat) (st : State)
    (data : Api.category) :
  category_endpoint env (net_log st ++ [Issued (GetCategory id)]) id = Some data →
  (Api.clues data ≠ [] →
     (getCategory_body env id st).1 = Returned tt ∧
     categories (getCategory_body env id st).2
       = categories st
         ++ [ {| title := Api.title data;
                 clues := (λ clue, {| question := Api.question clue;
                                      answer := Api.answer clue;
                                      showing := Hidden |})
                            <$> take NUM_CLUES (Api.clues data) |} ]) ∧
  (Api.clues data = [] →
     (getCategory_body env id st).1 = Thrown TypeError ∧
     categories (getCategory_body env id st).2 = categories st) ∧
  (∀ c0 c1 c2 c3 c4 more,
      Api.clues data = [c0; c1; c2; c3; c4] ++ more →
      categories (getCategory_body env id st).2
        = categories st
          ++ [ {| title := Api.title data;
                  clues := project <$> [c0; c1; c2; c3; c4] |} ]) ∧
  random_calls (getCategory_body env id st).2 = random_calls st ∧
  ∀ random', getCategory_body
               (mkEnv random' (categories_endpoint env) (category_endpoint env))
               id st
             = getCategory_body env id st.
Proof.
  intros Hdata. split_and!.
  - intros Hclues. rewrite getCategory_body_unfold. simpl. rewrite Hdata.
    unfold to_category, project. by destruct (Api.clues data).
  - by apply getCategory_body_no_clues.
  - intros c0 c1 c2 c3 c4 more E. rewrite getCategory_body_unfold. simpl.
    rewrite Hdata, E. simpl. unfold to_category. by rewrite E.
  - apply getCategory_body_other_fields.
  - intros random'. by rewrite !getCategory_body_unfold.
Qed.

Lemma getCategory_body_first_clues_witness :
  category_endpoint full_env (net_log initial_state ++ [Issued (GetCategory 7)]) 7
    = Some (sample_category 10 7) ∧
  length (Api.clues (sample_category 10 7)) = 10 ∧
  (getCategory_body full_env 7 initial_state).1 = Returned tt ∧
  categories (getCategory_body full_env 7 initial_state).2
    = [ {| title := "category 7";
           clues := [ mkClue "question 70" "answer 70" Hidden;
                      mkClue "question 71" "answer 71" Hidden;
                      mkClue "question 72" "answer 72" Hidden;
                      mkClue "question 73" "answer 73" Hidden;
                      mkClue "question 74" "answer 74" Hidden ] |} ].
Proof.
  split; [reflexivity|]. split; [reflexivity|].
  destruct (getCategory_body_first_clues full_env 7 initial_state
              (sample_category 10 7) eq_refl)
    as ([Hrun Hcats] & _); [discriminate|].
  split; [exact Hrun|]. rewrite Hcats. reflexivity.
Defined.

(** ** The fetch loop *)

Lemma getCategory_other_fields env ids st :
  let st' := (getCategory env ids st).2 in
  board st' = board st ∧ spinner_display st' = spinner_display st ∧
  btn_text st' = btn_text st ∧ alerts st' = alerts st ∧
  random_calls st' = random_calls st.
Proof.
  revert st. induction ids as [|id ids IH]; intros st; simpl; [done|].
  unfold mbind, M_bind, bind.
  pose proof (getCategory_body_other_fields env id st) as Hbody.
  destruct (getCategory_body env id st) as [[[]|x] st1]; simpl in *; [|done].
  specialize (IH st1). simpl in IH.
  destruct Hbody as (<- & <- & <- & <- & <-). exact IH.
Qed.

(** A loop that returns has fetched every id, in order, and has appended one
    category per id, in the same order. *)
Lemma getCategory_returned env ids st result st' :
  getCategory env ids st = (Returned result, st') →
  ∃ payloads,
    length payloads = length ids ∧
    Forall (λ data, Api.clues data ≠ [] ∧
                    ∃ history id, category_endpoint env history id = Some data)
           payloads ∧
    net_log st' = net_log st ++ fetch_log ids payloads ∧
    categories st' = categories st ++ (to_category <$> payloads) ∧
    result = categories st'.
Proof.
  revert st. induction ids as [|id ids IH]; intros st; simpl.
  - intros [= <- <-]. exists []. by rewrite !app_nil_r.
  - unfold mbind, M_bind, bind. rewrite getCategory_body_unfold. simpl.
    destruct (category_endpoint env _ id) as [data|] eqn:Hdata; [|done].
    destruct (Api.clues data) as [|c cs] eqn:Hclues; [done|].
    intros Hrest.
    destruct (IH _ Hrest) as (payloads & Hlen & Hall & Hlog & Hcats & ->).
    exists (data :: payloads). simpl in *. split_and!.
    + by rewrite Hlen.
    + constructor; [|done]. split; [by rewrite Hclues|eauto].
    + rewrite Hlog. unfold fetch_log. simpl. by rewrite <- !app_assoc.
    + rewrite Hcats. by rewrite <- app_assoc.
    + done.
Qed.

(** A loop that throws stopped at the first fetch that failed: the categories
    of the fetches before it have been appended and stay. *)
Lemma getCategory_thrown env ids st x st' :
  getCategory env ids st = (Thrown x, st') →
  ∃ payloads id last_event,
    ids !! length payloads = Some id ∧
    categories st' = categories st ++ (to_category <$> payloads) ∧
    net_log st'
      = net_log st ++ fetch_log (take (length payloads) ids) payloads
        ++ [Issued (GetCategory id); last_event] ∧
    ((x = NetworkError ∧ last_event = Failed (GetCategory id)) ∨
     (x = TypeError ∧ ∃ data, last_event = GotCategory (GetCategory id) data ∧
                              Api.clues data = [])).
Proof.
  revert st. induction ids as [|id ids IH]; intros st; simpl; [done|].
  unfold mbind, M_bind, bind. rewrite getCategory_body_unfold. simpl.
  destruct (category_endpoint env _ id) as [data|].
  - destruct (Api.clues data) as [|c cs] eqn:Hclues.
    + intros [= <- <-]. exists [], id, (GotCategory (GetCategory id) data).
      simpl. split_and!;
        [done|by rewrite app_nil_r|by rewrite <- app_assoc|]. right. eauto.
    + intros Hrest.
      destruct (IH _ Hrest) as (payloads & id' & ev & Hid & Hcats & Hlog & Hx).
      exists (data :: payloads), id', ev. simpl in *. split_and!; [done| | |done].
      * rewrite Hcats. by rewrite <- app_assoc.
      * rewrite Hlog. unfold fetch_log. simpl. by rewrite <- !app_assoc.
  - intros [= <- <-]. exists [], id, (Failed (GetCategory id)).
    simpl. split_and!;
      [done|by rewrite app_nil_r|by rewrite <- app_assoc|]. by left.
Qed.

(** ** Selecting the ids *)

Lemma selectCategoryIds_unfold env st :
  selectCategoryIds env st =
    let offset := random_outcome env (random_calls st) `mod` 7150 in
    let r := GetCategories 100 offset in
    let st1 := log_net (Issued r) (use_random 1 st) in
    match categories_endpoint env (net_log st1) 100 offset with
    | None => (Thrown NetworkError, log_net (Failed r) st1)
    | Some batch =>
        (Returned (Api.id <$> Lodash.sampleSize
                                (λ i, random_outcome env (random_calls st + 1 + i))
                                batch NUM_CATEGORIES),
         use_random (NUM_CATEGORIES `min` length batch)
                    (log_net (GotCategories r batch) st1))
    end.
Proof.
  unfold selectCategoryIds, Math_floor_random, axios_get_categories, sampleSize.
  unfold mbind, M_bind, bind, mret, M_ret, ret, gets, modify, throw.
  cbn [fst snd net_log log_net use_random random_calls].
  by destruct (categories_endpoint env _ 100 _).
Qed.

Lemma getCategoryIds_unfold env st :
  getCategoryIds env st =
    match selectCategoryIds env st with
    | (Returned ids, st1) =>
        match getCategory env ids st1 with
        | (Returned _, st2) => (Returned tt, st2)
        | (Thrown x, st2) => (Thrown x, st2)
        end
    | (Thrown x, st1) => (Thrown x, st1)
    end.
Proof.
  unfold getCategoryIds, mbind, M_bind, bind.
  destruct (selectCategoryIds env st) as [[ids|x] st1]; [|done].
  by destruct (getCategory env ids st1) as [[r|x] st2].
Qed.

Lemma fetch_log_lookup ids payloads i id data :
  ids !! i = Some id → payloads !! i = Some data →
  fetch_log ids payloads !! (2 * i) = Some (Issued (GetCategory id)) ∧
  fetch_log ids payloads !! (2 * i + 1)
    = Some (GotCategory (GetCategory id) data).
Proof.
  revert payloads i. induction ids as [|id0 ids IH]; intros payloads i; [done|].
  destruct payloads as [|data0 payloads]; [done|].
  destruct i as [|i]; simpl.
  - by intros [= ->] [= ->].
  - intros Hid Hdata. destruct (IH _ _ Hid Hdata) as [H1 H2].
    replace (i + S (i + 0)) with (S (2 * i)) by lia.
    unfold fetch_log in *. simpl. split; [done|].
    by replace (i + (i + 0) + 1) with (2 * i + 1) by lia.
Qed.

(** ** Order of the fetches *)

(** A build run in one piece that returns has sent one category request per
    selected id, in the order of selection, each settled before the next is
    issued, and has appended in place [i] the category made from the payload
    answered for the [i]-th selected id. *)
Lemma getCategoryIds_in_selection_order (env : Env) (st st' : State) :
  getCategoryIds env st = (Returned tt, st') →
  ∃ ids st1 payloads,
    selectCategoryIds env st = (Returned ids, st1) ∧
    length payloads = length ids ∧
    net_log st' = net_log st1 ++ fetch_log ids payloads ∧
    categories st' = categories st ++ (to_category <$> payloads) ∧
    ∀ i id, ids !! i = Some id →
      ∃ data,
        payloads !! i = Some data ∧
        net_log st' !! (length (net_log st1) + 2 * i)
          = Some (Issued (GetCategory id)) ∧
        net_log st' !! (length (net_log st1) + 2 * i + 1)
          = Some (GotCategory (GetCategory id) data) ∧
        categories st' !! (length (categories st) + i)
          = Some {| title := Api.title data;
                    clues := project <$> take NUM_CLUES (Api.clues data) |}.
Proof.
  rewrite getCategoryIds_unfold.
  destruct (selectCategoryIds env st) as [[ids|x] st1] eqn:Hsel; [|done].
  destruct (getCategory env ids st1) as [[r|x] st2] eqn:Hloop; [|done].
  intros [= <-].
  destruct (getCategory_returned _ _ _ _ _ Hloop)
    as (payloads & Hlen & _ & Hlog & Hcats & _).
  assert (categories st1 = categories st) as Hsame.
  { rewrite selectCategoryIds_unfold in Hsel. simpl in Hsel.
    destruct (categories_endpoint env _ 100 _); by simplify_eq. }
  rewrite Hsame in Hcats.
  exists ids, st1, payloads. split_and!; [done..|].
  intros i id Hid.
  destruct (lookup_lt_is_Some_2 payloads i) as [data Hdata].
  { rewrite Hlen. by eapply lookup_lt_Some. }
  destruct (fetch_log_lookup _ _ _ _ _ Hid Hdata) as [Hissued Hgot].
  exists data. split_and!; [done| | |].
  - rewrite Hlog, lookup_app_r by lia.
    by replace (length (net_log st1) + 2 * i - length (net_log st1)) with (2 * i)
      by lia.
  - rewrite Hlog, lookup_app_r by lia.
    by replace (length (net_log st1) + 2 * i + 1 - length (net_log st1))
      with (2 * i + 1) by lia.
  - rewrite Hcats, lookup_app_r by lia.
    replace (length (categories st) + i - length (categories st)) with i by lia.
    by rewrite list_lookup_fmap, Hdata.
Qed.

(** ** Start and restart *)

Lemma setupAndStart_unfold env st :
  setupAndStart env st =
    match getCategoryIds env (loading st) with
    | (Returned _, st1) =>
        match fillTable st1 with
        | (Returned _, st2) => hideLoadingView st2
        | (Thrown _, st2) => alert failure_notice st2
        end
    | (Thrown _, st1) => alert failure_notice st1
    end.
Proof.
  unfold setupAndStart, catch, showLoadingView, mbind, M_bind, bind, modify.
  fold (loading st). simpl. fold (loading st).
  destruct (getCategoryIds env (loading st)) as [[[]|x] st1]; [|done].
  by destruct (fillTable st1) as [[[]|x] st2].
Qed.

Lemma selectCategoryIds_other_fields env st :
  let st' := (selectCategoryIds env st).2 in
  categories st' = categories st ∧ board st' = board st ∧
  alerts st' = alerts st.
Proof.
  rewrite selectCategoryIds_unfold. simpl.
  by destruct (categories_endpoint env _ 100 _).
Qed.

(** The claim of C3 as written fails: with the third of the selected
    categories rejected by the source, the start ends with the two categories
    fetched before it left in [categories]. *)
Lemma failed_build_keeps_fetched_categories :
  Failed (GetCategory 13) ∈ net_log (setupAndStart flaky_env initial_state).2 ∧
  categories initial_state = [] ∧
  categories (setupAndStart flaky_env initial_state).2
    = [ to_category (sample_category 10 5); to_category (sample_category 10 9) ] ∧
  categories (setupAndStart flaky_env initial_state).2 ≠ categories initial_state.
Proof.
  split_and!.
  - apply list_elem_of_lookup. exists 7. vm_compute. reflexivity.
  - reflexivity.
  - vm_compute. reflexivity.
  - vm_compute. discriminate.
Qed.

(** ** Shape of the session *)

Lemma handleClick_full_grid e st :
  full_grid (categories st) → full_grid (categories (handleClick e st).2).
Proof.
  intros Hgrid.
  destruct (clue_at (categories st) (categoryIndex e) (clueIndex e))
    as [clue|] eqn:Hat.
  - rewrite (handleClick_resolved _ _ _ Hat).
    destruct (showing clue); simpl; auto using set_showing_full_grid.
  - by rewrite (handleClick_unresolved _ _ Hat).
Qed.

Lemma clicks_full_grid es st :
  full_grid (categories st) → full_grid (categories (clicks es st)).
Proof.
  revert st. induction es as [|e es IH]; intros st Hgrid; simpl; [done|].
  by apply IH, handleClick_full_grid.
Qed.

Lemma to_category_clue_count data :
  length (clues (to_category data)) = NUM_CLUES `min` length (Api.clues data).
Proof. unfold to_category. simpl. by rewrite length_fmap, length_take. Qed.

(** The shape a completed acquisition leaves, given the sizes the source
    answers with. *)
Lemma getCategoryIds_grid env st st' :
  (∀ history offset batch,
      categories_endpoint env history 100 offset = Some batch →
      NUM_CATEGORIES ≤ length batch) →
  (∀ history id data,
      category_endpoint env history id = Some data →
      NUM_CLUES ≤ length (Api.clues data)) →
  categories st = [] →
  getCategoryIds env st = (Returned tt, st') →
  full_grid (categories st').
Proof.
  intros Hbatch Hpayload Hempty.
  rewrite getCategoryIds_unfold.
  destruct (selectCategoryIds env st) as [[ids|x] st1] eqn:Hsel; [|done].
  destruct (getCategory env ids st1) as [[r|x] st2] eqn:Hloop; [|done].
  intros [= <-].
  pose proof (selectCategoryIds_other_fields env st) as (Hcats1 & _).
  rewrite Hsel in Hcats1. simpl in Hcats1.
  assert (length ids = NUM_CATEGORIES) as Hids.
  { rewrite selectCategoryIds_unfold in Hsel. simpl in Hsel.
    destruct (categories_endpoint env _ 100 _) as [batch|] eqn:Hget; [|done].
    apply Hbatch in Hget. injection Hsel as <- _.
    rewrite length_fmap, sampleSize_length. lia. }
  destruct (getCategory_returned _ _ _ _ _ Hloop)
    as (payloads & Hlen & Hall & _ & Hcats & _).
  rewrite Hcats1, Hempty in Hcats. simpl in Hcats.
  split.
  - rewrite Hcats, length_fmap. congruence.
  - rewrite Hcats. apply Forall_fmap. eapply Forall_impl; [exact Hall|].
    intros data (_ & history & id & Hdata). unfold compose.
    rewrite to_category_clue_count. apply Hpayload in Hdata. lia.
Qed.

(** The claim of C1 as written fails: against a source whose category 5 has
    three clues the acquisition completes without error and the board is
    rendered, yet the first category has three clues and address [(0, 4)]
    resolves to nothing; against a source with two candidates the acquisition
    completes with two categories. *)
Lemma completed_acquisition_not_full_grid :
  (getCategoryIds short_env (loading initial_state)).1 = Returned tt ∧
  alerts (setupAndStart short_env initial_state).2 = [] ∧
  (length ∘ clues) <$> categories (setupAndStart short_env initial_state).2
    = [3; 5; 5; 5; 5; 5] ∧
  0 < NUM_CATEGORIES ∧ 4 < NUM_CLUES ∧
  clue_at (categories (setupAndStart short_env initial_state).2) 0 4 = None ∧
  (getCategoryIds scarce_env (loading initial_state)).1 = Returned tt ∧
  length (categories (getCategoryIds scarce_env (loading initial_state)).2) = 2.
Proof.
  unfold NUM_CATEGORIES, NUM_CLUES.
  split_and!; try lia; vm_compute; reflexivity.
Qed.

(** ** The selected ids *)




(** ** Completion *)

(** Against a source that answers every category request with at least one
    clue, the loop returns. *)
Lemma getCategory_completes env ids st :
  (∀ history id, ∃ data, category_endpoint env history id = Some data ∧
                         Api.clues data ≠ []) →
  ∃ st', getCategory env ids st = (Returned (categories st'), st').
Proof.
  intros Hsource. revert st.
  induction ids as [|id ids IH]; intros st; simpl; [by exists st|].
  unfold mbind, M_bind, bind. rewrite getCategory_body_unfold. simpl.
  destruct (Hsource (net_log st ++ [Issued (GetCategory id)]) id)
    as (data & -> & Hclues).
  destruct (Api.clues data); [done|]. apply IH.
Qed.

(** Against such a source that also answers the candidate request, the
    acquisition returns. *)
Lemma getCategoryIds_completes env st :
  (∀ history offset, is_Some (categories_endpoint env history 100 offset)) →
  (∀ history id, ∃ data, category_endpoint env history id = Some data ∧
                         Api.clues data ≠ []) →
  ∃ st', getCategoryIds env st = (Returned tt, st').
Proof.
  intros Hbatch Hsource.
  rewrite getCategoryIds_unfold, selectCategoryIds_unfold. cbv zeta.
  destruct (Hbatch (net_log (log_net (Issued (GetCategories 100
                      (random_outcome env (random_calls st) `mod` 7150)))
                      (use_random 1 st)))
                   (random_outcome env (random_calls st) `mod` 7150))
    as [batch ->].
  match goal with
  | |- context [getCategory env ?ids ?st1] =>
      destruct (getCategory_completes env ids st1 Hsource) as [st' ->]
  end.
  by exists st'.
Qed.

(** [fillTable] on a full session: the titles in order, then [NUM_CLUES]
    rows of [NUM_CATEGORIES] fresh cells. *)
Lemma head_titles_returned cs indices st :
  Forall (λ i, i < length cs) indices →
  ∃ titles, head_titles cs indices st = (Returned titles, st) ∧
            Forall2 (λ i t, title <$> cs !! i = Some t) indices titles.
Proof.
  induction 1 as [|i indices Hi _ (titles & Hrun & Htitles)]; simpl.
  - by exists [].
  - destruct (lookup_lt_is_Some_2 cs i Hi) as [c Hc].
    exists (title c :: titles). run_monad. rewrite Hc. simpl.
    unfold mret, M_ret, ret in Hrun. rewrite Hrun. split; [done|].
    constructor; [by rewrite Hc|done].
Qed.

Lemma fillTable_full st :
  NUM_CATEGORIES ≤ length (categories st) →
  ∃ titles,
    fillTable st
      = (Returned tt,
         set_board (board st ++ [Thead titles]
                    ++ [Tbody (new_tr <$> seq 0 NUM_CLUES)]) st) ∧
    titles = title <$> take NUM_CATEGORIES (categories st).
Proof.
  intros Hlen.
  destruct (head_titles_returned (categories st) (seq 0 NUM_CATEGORIES) st)
    as (titles & Hrun & Htitles).
  { apply Forall_seq. intros; lia. }
  exists titles. split.
  - unfold fillTable, mbind, M_bind, bind, gets, modify. cbv beta iota.
    rewrite Hrun. unfold set_board. simpl. by rewrite <- app_assoc.
  - apply list_eq. intros i.
    rewrite list_lookup_fmap, lookup_take.
    destruct (decide (i < NUM_CATEGORIES)) as [Hi|Hi].
    + rewrite Forall2_lookup in Htitles. specialize (Htitles i).
      rewrite lookup_seq_lt in Htitles by done. simpl in Htitles.
      inversion Htitles as [? t Hit|]; subst. by rewrite Hit.
    + apply Forall2_length in Htitles. rewrite length_seq in Htitles.
      simpl. apply lookup_ge_None. lia.
Qed.

(** The chain in one piece against a source that always answers, with at
    least [NUM_CATEGORIES] candidates and at least [NUM_CLUES] clues per
    category: no notice, the loading view taken down, a full grid, the titles
    over a body of fresh cells. *)
Lemma setupAndStart_ready_chain (env : Env) (st : State) :
  (∀ history offset, ∃ batch,
      categories_endpoint env history 100 offset = Some batch ∧
      NUM_CATEGORIES ≤ length batch) →
  (∀ history id, ∃ data,
      category_endpoint env history id = Some data ∧
      NUM_CLUES ≤ length (Api.clues data)) →
  let st' := (setupAndStart env st).2 in
  (setupAndStart env st).1 = Returned tt ∧
  alerts st' = alerts st ∧
  spinner_display st' = "none" ∧ btn_text st' = "RESTART" ∧
  full_grid (categories st') ∧
  board st' = [Thead (title <$> categories st');
               Tbody (new_tr <$> seq 0 NUM_CLUES)].
Proof.
  intros Hbatch Hsource.
  destruct (getCategoryIds_completes env (loading st)) as [st1 Hrun].
  { intros history offset. destruct (Hbatch history offset) as (b & -> & _).
    eauto. }
  { intros history id. destruct (Hsource history id) as (data & -> & Hlen).
    exists data. split; [done|]. intros E. rewrite E in Hlen.
    unfold NUM_CLUES in Hlen. simpl in Hlen. lia. }
  assert (full_grid (categories st1)) as Hgrid.
  { apply (getCategoryIds_grid env (loading st) st1);
      [| |reflexivity|exact Hrun].
    - intros history offset batch E.
      destruct (Hbatch history offset) as (b & E' & Hlen). congruence.
    - intros history id data E.
      destruct (Hsource history id) as (d & E' & Hlen). congruence. }
  destruct (fillTable_full st1) as (titles & Hfill & ->).
  { destruct Hgrid as [-> _]. done. }
  assert (board st1 = [] ∧ alerts st1 = alerts st) as [Hboard Halerts].
  { rewrite getCategoryIds_unfold in Hrun.
    pose proof (selectCategoryIds_other_fields env (loading st)) as Hsel.
    destruct (selectCategoryIds env (loading st)) as [[ids|x] sa]; [|done].
    pose proof (getCategory_other_fields env ids sa) as Hloop.
    destruct (getCategory env ids sa) as [[r|x] sb]; [|done].
    injection Hrun as <-. simpl in *.
    destruct Hsel as (_ & Hb1 & Ha1). destruct Hloop as (Hb2 & _ & _ & Ha2 & _).
    split; congruence. }
  rewrite setupAndStart_unfold, Hrun, Hfill.
  rewrite take_ge by (destruct Hgrid as [-> _]; done).
  simpl. rewrite Hboard. by split_and!.
Qed.

(** * Further properties of the script *)

(** ** [fillTable] *)

Lemma head_titles_thrown cs indices st :
  Exists (λ i, length cs ≤ i) indices →
  head_titles cs indices st = (Thrown TypeError, st).
Proof.
  induction indices as [|i indices IH]; intros Hex; [by inversion Hex|].
  simpl. run_monad. destruct (cs !! i) as [c|] eqn:Hc; simpl; [|done].
  apply Exists_cons in Hex as [Hi|Hrest].
  - apply lookup_ge_None in Hi. congruence.
  - by rewrite (IH Hrest).
Qed.

Lemma fillTable_short st :
  length (categories st) < NUM_CATEGORIES →
  fillTable st = (Thrown TypeError, st).
Proof.
  intros Hlen. unfold fillTable, mbind, M_bind, bind, gets. cbv beta iota.
  rewrite head_titles_thrown; [done|].
  apply Exists_exists. exists (length (categories st)).
  split; [|done]. apply elem_of_seq. lia.
Qed.

(** X1: on a session of at least [NUM_CATEGORIES] categories [fillTable]
    appends, after whatever the board holds, one head with the titles of the
    first [NUM_CATEGORIES] categories in their order and one body of
    [NUM_CLUES] rows; row [i] has id [i] and [NUM_CATEGORIES] cells, cell [j]
    carrying [data-category = j], the text ['?'] and no class.  Categories
    past the sixth and all clues are not read, and nothing but the board
    changes. *)
Theorem fillTable_renders (st : State) :
  NUM_CATEGORIES ≤ length (categories st) →
  ∃ rows,
    fillTable st
      = (Returned tt,
         set_board (board st
                    ++ [Thead (title <$> take NUM_CATEGORIES (categories st));
                        Tbody rows]) st) ∧
    length rows = NUM_CLUES ∧
    ∀ i j, i < NUM_CLUES → j < NUM_CATEGORIES →
      ∃ row, rows !! i = Some row ∧ tr_id row = i ∧
             length (tr_cells row) = NUM_CATEGORIES ∧
             tr_cells row !! j = Some (mkTd j "?" "").
Proof.
  intros Hlen. destruct (fillTable_full st Hlen) as (titles & Hfill & ->).
  exists (new_tr <$> seq 0 NUM_CLUES). split_and!.
  - exact Hfill.
  - by rewrite length_fmap, length_seq.
  - intros i j Hi Hj. exists (new_tr i). split_and!.
    + by rewrite list_lookup_fmap, lookup_seq_lt.
    + done.
    + unfold new_tr. cbn [tr_cells]. by rewrite length_fmap, length_seq.
    + unfold new_tr. cbn [tr_cells].
      by rewrite list_lookup_fmap, lookup_seq_lt.
Qed.

Lemma fillTable_renders_witness :
  NUM_CATEGORIES ≤ length (categories (getCategoryIds full_env initial_state).2) ∧
  ∃ rows,
    fillTable (getCategoryIds full_env initial_state).2
      = (Returned tt,
         set_board [Thead ["category 5"; "category 9"; "category 13";
                           "category 17"; "category 21"; "category 25"];
                    Tbody rows]
                   (getCategoryIds full_env initial_state).2) ∧
    length rows = 5.
Proof.
  assert (NUM_CATEGORIES
          ≤ length (categories (getCategoryIds full_env initial_state).2))
    as Hlen by (vm_compute; lia).
  split; [exact Hlen|].
  destruct (fillTable_renders (getCategoryIds full_env initial_state).2 Hlen)
    as (rows & Hfill & Hrows & _).
  exists rows. split; [exact Hfill|exact Hrows].
Defined.

(** X2: on a session of fewer than [NUM_CATEGORIES] categories [fillTable]
    throws a [TypeError] at the first missing category, before anything is
    appended: the board gets no head, not even a partial one, and the rest of
    the state is untouched. *)
Theorem fillTable_short_throws (st : State) :
  length (categories st) < NUM_CATEGORIES →
  fillTable st = (Thrown TypeError, st).
Proof. apply fillTable_short. Qed.

Lemma fillTable_short_throws_witness :
  length (categories (getCategoryIds scarce_env initial_state).2) = 2 ∧
  fillTable (getCategoryIds scarce_env initial_state).2
    = (Thrown TypeError, (getCategoryIds scarce_env initial_state).2).
Proof.
  split; [vm_compute; reflexivity|].
  apply (fillTable_short_throws (getCategoryIds scarce_env initial_state).2).
  vm_compute. lia.
Defined.

(** ** Outcomes of a start *)

Lemma selectCategoryIds_view env st :
  let st' := (selectCategoryIds env st).2 in
  spinner_display st' = spinner_display st ∧ btn_text st' = btn_text st.
Proof.
  rewrite selectCategoryIds_unfold. simpl.
  by destruct (categories_endpoint env _ 100 _).
Qed.

(** The acquisition touches neither the board nor the loading view nor the
    notices, whatever its outcome. *)
Lemma getCategoryIds_view env st :
  let st' := (getCategoryIds env st).2 in
  board st' = board st ∧ spinner_display st' = spinner_display st ∧
  btn_text st' = btn_text st ∧ alerts st' = alerts st.
Proof.
  rewrite getCategoryIds_unfold.
  pose proof (selectCategoryIds_other_fields env st) as (_ & Hb & Ha).
  pose proof (selectCategoryIds_view env st) as (Hs & Ht).
  destruct (selectCategoryIds env st) as [[ids|x] st1]; simpl in *; [|done].
  pose proof (getCategory_other_fields env ids st1) as (Hb' & Hs' & Ht' & Ha' & _).
  destruct (getCategory env ids st1) as [[r|x] st2]; simpl in *;
    split_and!; congruence.
Qed.

(** What the acquisition leaves in [categories], whatever its outcome: the
    categories made from the payloads fetched, at most [NUM_CATEGORIES] and at
    most as many as the batch lists, and as many as selected when it
    returns. *)
Lemma getCategoryIds_acquired env st :
  ∃ payloads,
    categories (getCategoryIds env st).2
      = categories st ++ (to_category <$> payloads) ∧
    length payloads ≤ NUM_CATEGORIES ∧
    ((∀ history offset batch,
         categories_endpoint env history 100 offset = Some batch →
         length batch < NUM_CATEGORIES) →
     length payloads < NUM_CATEGORIES).
Proof.
  rewrite getCategoryIds_unfold, selectCategoryIds_unfold. cbv zeta.
  destruct (categories_endpoint env _ 100 _) as [batch|] eqn:Hget;
    cbv beta iota.
  - match goal with
    | |- context [getCategory env ?ids ?st1] =>
        assert (length ids = NUM_CATEGORIES `min` length batch) as Hids
          by (by rewrite length_fmap, sampleSize_length);
        destruct (getCategory env ids st1) as [[r|x] st2] eqn:Hloop
    end.
    + destruct (getCategory_returned _ _ _ _ _ Hloop)
        as (payloads & Hlen & _ & _ & Hcats & _).
      change (categories st2 = categories st ++ (to_category <$> payloads))
        in Hcats.
      exists payloads. split_and!; [done|lia|].
      intros Hscarce. apply Hscarce in Hget. lia.
    + destruct (getCategory_thrown _ _ _ _ _ Hloop)
        as (payloads & id & ev & Hid & Hcats & _).
      apply lookup_lt_Some in Hid.
      change (categories st2 = categories st ++ (to_category <$> payloads))
        in Hcats.
      exists payloads. split_and!; [done|lia|].
      intros Hscarce. apply Hscarce in Hget. lia.
  - exists []. simpl. rewrite app_nil_r. split_and!; [done|lia|].
    intros _. unfold NUM_CATEGORIES. lia.
Qed.

Lemma setupAndStart_cases env st :
  (setupAndStart env st).1 = Returned tt ∧
  ((length (categories (setupAndStart env st).2) = NUM_CATEGORIES ∧
    board (setupAndStart env st).2
      = [Thead (title <$> categories (setupAndStart env st).2);
         Tbody (new_tr <$> seq 0 NUM_CLUES)] ∧
    spinner_display (setupAndStart env st).2 = "none" ∧
    btn_text (setupAndStart env st).2 = "RESTART" ∧
    alerts (setupAndStart env st).2 = alerts st)
   ∨
   (alerts (setupAndStart env st).2 = alerts st ++ [failure_notice] ∧
    board (setupAndStart env st).2 = [] ∧
    spinner_display (setupAndStart env st).2 = "inline-block" ∧
    btn_text (setupAndStart env st).2 = "LOADING...")).
Proof.
  rewrite setupAndStart_unfold.
  pose proof (getCategoryIds_view env (loading st)) as (Hb & Hs & Ht & Ha).
  destruct (getCategoryIds_acquired env (loading st)) as (payloads & Hcats & Hmax & _).
  destruct (getCategoryIds env (loading st)) as [[[]|x] st1]; simpl in *.
  - destruct (decide (length (categories st1) < NUM_CATEGORIES)) as [Hshort|Hfull].
    + rewrite (fillTable_short _ Hshort). simpl.
      split; [done|]. right. split_and!; congruence.
    + destruct (fillTable_full st1) as (titles & -> & ->); [lia|].
      assert (length (categories st1) = NUM_CATEGORIES) as Hlen.
      { rewrite Hcats, length_fmap in *. lia. }
      simpl. rewrite take_ge by lia. rewrite Hb.
      split; [done|]. left. by split_and!.
  - split; [done|]. right. split_and!; congruence.
Qed.

(** The chain in one piece against a source that lists fewer than
    [NUM_CATEGORIES] candidates ends in the failure notice. *)
Lemma setupAndStart_scarce_chain (env : Env) (st : State) :
  (∀ history offset batch,
      categories_endpoint env history 100 offset = Some batch →
      length batch < NUM_CATEGORIES) →
  alerts (setupAndStart env st).2 = alerts st ++ [failure_notice] ∧
  board (setupAndStart env st).2 = [] ∧
  length (categories (setupAndStart env st).2) < NUM_CATEGORIES ∧
  btn_text (setupAndStart env st).2 = "LOADING...".
Proof.
  intros Hscarce. rewrite setupAndStart_unfold.
  pose proof (getCategoryIds_view env (loading st)) as (Hb & Hs & Ht & Ha).
  destruct (getCategoryIds_acquired env (loading st))
    as (payloads & Hcats & _ & Hless).
  specialize (Hless Hscarce).
  assert (length (categories (getCategoryIds env (loading st)).2)
          < NUM_CATEGORIES) as Hshort.
  { rewrite Hcats. simpl. by rewrite length_fmap. }
  destruct (getCategoryIds env (loading st)) as [[[]|x] st1]; simpl in *.
  - rewrite (fillTable_short _ Hshort). simpl. split_and!; congruence.
  - split_and!; congruence.
Qed.

(** ** Clicks as counters *)

Lemma set_showing_as_next cs i j clue :
  clue_at cs i j = Some clue →
  clue_at (set_showing i j (next (showing clue)) cs) i j
  = Some (clicked_times 1 clue).
Proof. intros Hat. by rewrite clue_at_set_showing_eq, Hat. Qed.

(** The categories a click leaves, clue by clue: the addressed clue one click
    further, every other clue as it was. *)
Lemma handleClick_clue_at e st i j :
  clue_at (categories (handleClick e st).2) i j
  = if decide ((categoryIndex e, clueIndex e) = (i, j))
    then clicked_times 1 <$> clue_at (categories st) i j
    else clue_at (categories st) i j.
Proof.
  destruct (clue_at (categories st) (categoryIndex e) (clueIndex e))
    as [clue|] eqn:Hat.
  - rewrite (handleClick_resolved _ _ _ Hat).
    destruct (decide _) as [[= <- <-]|Hne].
    + rewrite Hat. simpl. unfold clicked_times. simpl.
      destruct (showing clue) eqn:Hs; simpl;
        rewrite ?clue_at_set_showing_eq, ?Hat; simpl; try done.
      destruct clue; simpl in *; by subst.
    + destruct (showing clue); simpl;
        by rewrite ?clue_at_set_showing_ne by congruence.
  - rewrite (handleClick_unresolved _ _ Hat).
    destruct (decide _) as [[= <- <-]|Hne]; [|done]. by rewrite Hat.
Qed.

Lemma handleClick_titles e st :
  title <$> categories (handleClick e st).2 = title <$> categories st.
Proof.
  destruct (clue_at (categories st) (categoryIndex e) (clueIndex e))
    as [clue|] eqn:Hat.
  - rewrite (handleClick_resolved _ _ _ Hat).
    destruct (showing clue); simpl; by rewrite ?set_showing_titles.
  - by rewrite (handleClick_unresolved _ _ Hat).
Qed.

Lemma clicked_times_add n m clue :
  clicked_times n (clicked_times m clue) = clicked_times (n + m) clue.
Proof. unfold clicked_times. simpl. by rewrite Nat.iter_add. Qed.

Lemma clicks_clue_at es st i j :
  clue_at (categories (clicks es st)) i j
  = clicked_times (hits i j es) <$> clue_at (categories st) i j.
Proof.
  revert st. induction es as [|e es IH]; intros st; simpl.
  - unfold hits. simpl. destruct (clue_at _ i j) as [[]|]; done.
  - rewrite IH, handleClick_clue_at. unfold hits.
    destruct (decide ((categoryIndex e, clueIndex e) = (i, j))) as [He|He].
    + rewrite filter_cons_True by done. simpl.
      destruct (clue_at (categories st) i j) as [clue|]; simpl; [|done].
      rewrite clicked_times_add. do 2 f_equal. lia.
    + by rewrite filter_cons_False by done.
Qed.

Lemma clicks_titles es st :
  title <$> categories (clicks es st) = title <$> categories st.
Proof.
  revert st. induction es as [|e es IH]; intros st; simpl; [done|].
  by rewrite IH, handleClick_titles.
Qed.

Lemma stage_iter_next n s : stage (Nat.iter n next s) = (stage s + n) `min` 2.
Proof.
  induction n as [|n IH]; simpl.
  - destruct s; simpl; lia.
  - destruct (Nat.iter n next s); simpl in *; lia.
Qed.

(** Two lists of categories with the same titles and the same clue at every
    address are the same list. *)
Lemma categories_ext cs cs' :
  title <$> cs = title <$> cs' →
  (∀ i j, clue_at cs i j = clue_at cs' i j) →
  cs = cs'.
Proof.
  intros Htitles Hclues. apply list_eq. intros i.
  assert (title <$> cs !! i = title <$> cs' !! i) as Ht
    by (by rewrite <- !list_lookup_fmap, Htitles).
  pose proof (Hclues i) as Hi. unfold clue_at in Hi.
  destruct (cs !! i) as [[t l]|], (cs' !! i) as [[t' l']|]; simpl in *;
    try done.
  injection Ht as ->. f_equal. f_equal. by apply list_eq.
Qed.

(** X6: the stage of a clue counts the clicks on its own cell, whatever else
    is clicked in between and in whatever order: after any sequence of clicks
    the clue at [(i, j)] has the question and answer it had and is at stage
    [min 2 (stage before + number of clicks that carried (i, j))]. *)
Theorem stage_counts_own_clicks (es : list ClickEvent) (st : State)
    (i j : nat) (clue : Clue) :
  clue_at (categories st) i j = Some clue →
  ∃ clue',
    clue_at (categories (clicks es st)) i j = Some clue' ∧
    question clue' = question clue ∧ answer clue' = answer clue ∧
    stage (showing clue') = (stage (showing clue) + hits i j es) `min` 2.
Proof.
  intros Hat. exists (clicked_times (hits i j es) clue).
  rewrite clicks_clue_at, Hat. split_and!; [done..|].
  apply stage_iter_next.
Qed.

Lemma stage_counts_own_clicks_witness :
  clue_at (categories full_page) 2 3
    = Some (mkClue "question 133" "answer 133" Hidden) ∧
  ∃ clue',
    clue_at (categories (clicks [sample_click; mkClick (new_td 0) 0;
                                 mkClick (new_td 9) 9; sample_click]
                                full_page)) 2 3 = Some clue' ∧
    question clue' = "question 133" ∧ answer clue' = "answer 133" ∧
    stage (showing clue') = 2.
Proof.
  split; [reflexivity|].
  exact (stage_counts_own_clicks
           [sample_click; mkClick (new_td 0) 0; mkClick (new_td 9) 9;
            sample_click]
           full_page 2 3 (mkClue "question 133" "answer 133" Hidden) eq_refl).
Defined.

(** X7: the order of clicks does not matter for the session: two sequences
    of clicks that are permutations of each other (out-of-range clicks
    included) leave the same [categories]. *)
Theorem clicks_order_irrelevant (es es' : list ClickEvent) (st : State) :
  es ≡ₚ es' →
  categories (clicks es st) = categories (clicks es' st).
Proof.
  intros Hperm. apply categories_ext.
  - by rewrite !clicks_titles.
  - intros i j. rewrite !clicks_clue_at. unfold hits. by rewrite Hperm.
Qed.

Lemma clicks_order_irrelevant_witness :
  [sample_click; mkClick (new_td 0) 0; sample_click]
    ≡ₚ [sample_click; sample_click; mkClick (new_td 0) 0] ∧
  categories (clicks [sample_click; mkClick (new_td 0) 0; sample_click]
                     full_page)
  = categories (clicks [sample_click; sample_click; mkClick (new_td 0) 0]
                       full_page).
Proof.
  assert ([sample_click; mkClick (new_td 0) 0; sample_click]
            ≡ₚ [sample_click; sample_click; mkClick (new_td 0) 0]) as Hperm.
  { apply perm_skip, perm_swap. }
  split; [exact Hperm|].
  exact (clicks_order_irrelevant _ _ full_page Hperm).
Defined.

(** ** What a start replaces, and what it sends *)

Lemma setupAndStart_categories env st :
  categories (setupAndStart env st).2
  = categories (getCategoryIds env (loading st)).2.
Proof.
  rewrite setupAndStart_unfold.
  destruct (getCategoryIds env (loading st)) as [[[]|x] st1]; simpl; [|done].
  destruct (decide (length (categories st1) < NUM_CATEGORIES)) as [Hshort|Hfull].
  - by rewrite (fillTable_short _ Hshort).
  - by destruct (fillTable_full st1) as (titles & -> & _); [lia|].
Qed.

Lemma setupAndStart_net_log env st :
  net_log (setupAndStart env st).2 = net_log (getCategoryIds env (loading st)).2.
Proof.
  rewrite setupAndStart_unfold.
  destruct (getCategoryIds env (loading st)) as [[[]|x] st1]; simpl; [|done].
  destruct (decide (length (categories st1) < NUM_CATEGORIES)) as [Hshort|Hfull].
  - by rewrite (fillTable_short _ Hshort).
  - by destruct (fillTable_full st1) as (titles & -> & _); [lia|].
Qed.

Lemma setupAndStart_all_hidden env st category clue :
  category ∈ categories (setupAndStart env st).2 →
  clue ∈ clues category →
  showing clue = Hidden.
Proof.
  intros Hcat Hclue.
  rewrite setupAndStart_categories in Hcat.
  destruct (getCategoryIds_acquired env (loading st)) as (payloads & Hcats & _).
  rewrite Hcats in Hcat. simpl in Hcat.
  apply list_elem_of_fmap in Hcat as (data & -> & _).
  unfold to_category in Hclue. simpl in Hclue.
  by apply list_elem_of_fmap in Hclue as (raw & -> & _).
Qed.

(** The chain in one piece does not depend on the categories and the board
    it finds, and leaves every clue [Hidden]. *)
Lemma setupAndStart_fresh_chain (env : Env) (st : State)
    (cs : list Category) (b : list BoardNode) :
  setupAndStart env (set_board b (set_categories cs st)) = setupAndStart env st ∧
  ∀ category clue,
    category ∈ categories (setupAndStart env st).2 →
    clue ∈ clues category →
    showing clue = Hidden.
Proof.
  split.
  - by rewrite !setupAndStart_unfold.
  - apply setupAndStart_all_hidden.
Qed.

Lemma issued_app log log' : issued (log ++ log') = issued log ++ issued log'.
Proof. apply omap_app. Qed.

Lemma issued_fetch_log ids payloads :
  length payloads = length ids →
  issued (fetch_log ids payloads) = GetCategory <$> ids.
Proof.
  revert payloads. induction ids as [|id ids IH]; intros [|data payloads];
    simpl; try done.
  intros [= Hlen]. unfold fetch_log in *. simpl. unfold issued in *. simpl.
  f_equal. by apply IH.
Qed.

Lemma getCategory_thrown_issued env ids st x st' :
  getCategory env ids st = (Thrown x, st') →
  ∃ k id,
    ids !! k = Some id ∧
    length (categories st') = length (categories st) + k ∧
    issued (net_log st') = issued (net_log st) ++ (GetCategory <$> take (S k) ids).
Proof.
  intros Hloop.
  destruct (getCategory_thrown _ _ _ _ _ Hloop)
    as (payloads & id & ev & Hid & Hcats & Hlog & Hev).
  exists (length payloads), id. split_and!.
  - done.
  - by rewrite Hcats, length_app, length_fmap.
  - rewrite Hlog, !issued_app, issued_fetch_log.
    + rewrite (take_S_r _ _ _ Hid), fmap_app. do 2 f_equal.
      destruct Hev as [[_ ->]|[_ (data & -> & _)]]; done.
    + apply lookup_lt_Some in Hid. rewrite length_take. lia.
Qed.

(** X9: the loop stops at the first fetch that fails.  When [getCategory]
    throws, the fetch of some id at a position [k] failed, exactly [k]
    categories have been appended, and the requests it has sent are those for
    the ids up to position [k], in order: no id after the failing one is
    requested. *)
Theorem getCategory_stops_at_failure (env : Env) (ids : list nat)
    (st : State) (x : Exn) (st' : State) :
  getCategory env ids st = (Thrown x, st') →
  ∃ k id,
    ids !! k = Some id ∧
    length (categories st') = length (categories st) + k ∧
    issued (net_log st') = issued (net_log st) ++ (GetCategory <$> take (S k) ids).
Proof. apply getCategory_thrown_issued. Qed.

Lemma getCategory_stops_at_failure_witness :
  getCategory flaky_env [5; 9; 13; 17; 21; 25] initial_state
    = (Thrown NetworkError,
       (getCategory flaky_env [5; 9; 13; 17; 21; 25] initial_state).2) ∧
  ∃ k id,
    [5; 9; 13; 17; 21; 25] !! k = Some id ∧
    length (categories
              (getCategory flaky_env [5; 9; 13; 17; 21; 25] initial_state).2)
      = k ∧
    issued (net_log
              (getCategory flaky_env [5; 9; 13; 17; 21; 25] initial_state).2)
      = GetCategory <$> take (S k) [5; 9; 13; 17; 21; 25].
Proof.
  split; [vm_compute; reflexivity|].
  apply (getCategory_stops_at_failure flaky_env [5; 9; 13; 17; 21; 25]
           initial_state NetworkError
           (getCategory flaky_env [5; 9; 13; 17; 21; 25] initial_state).2).
  vm_compute; reflexivity.
Defined.

(** X10: what one start sends.  Whatever the source and the random outcomes,
    a start sends one candidates request, with [count = 100] and an offset
    below 7150, followed by at most [NUM_CATEGORIES] category requests, and
    nothing else. *)
Theorem setupAndStart_requests (env : Env) (st : State) :
  ∃ offset ids,
    offset < 7150 ∧
    length ids ≤ NUM_CATEGORIES ∧
    issued (net_log (setupAndStart env st).2)
      = issued (net_log st) ++ GetCategories 100 offset :: (GetCategory <$> ids).
Proof.
  rewrite setupAndStart_net_log.
  exists (random_outcome env (random_calls (loading st)) `mod` 7150).
  rewrite getCategoryIds_unfold, selectCategoryIds_unfold. cbv zeta.
  assert (random_outcome env (random_calls (loading st)) `mod` 7150 < 7150)
    as Hoffset by (by apply Nat.mod_upper_bound).
  destruct (categories_endpoint env _ 100 _) as [batch|]; cbv beta iota.
  - match goal with
    | |- context [getCategory env ?ids ?st1] =>
        assert (length ids ≤ NUM_CATEGORIES) as Hids
          by (rewrite length_fmap, sampleSize_length; lia);
        set (selected := ids) in *;
        destruct (getCategory env selected st1) as [[r|x] st2] eqn:Hloop
    end.
    + destruct (getCategory_returned _ _ _ _ _ Hloop)
        as (payloads & Hlen & _ & Hlog & _).
      exists selected. split_and!; [done..|].
      cbn [snd]. rewrite Hlog, issued_app, issued_fetch_log by done.
      cbn [net_log log_net use_random]. rewrite !issued_app. simpl.
      by rewrite app_nil_r, <- app_assoc.
    + destruct (getCategory_thrown_issued _ _ _ _ _ Hloop)
        as (k & id & Hid & _ & Hlog).
      exists (take (S k) selected). split_and!; [done| |].
      * rewrite length_take. lia.
      * cbn [snd]. rewrite Hlog.
        cbn [net_log log_net use_random]. rewrite !issued_app. simpl.
        by rewrite app_nil_r, <- app_assoc.
  - exists []. split_and!; [done|unfold NUM_CATEGORIES; simpl; lia|].
    cbn [snd net_log log_net use_random]. rewrite !issued_app. simpl.
    by rewrite app_nil_r.
Qed.

(** ** Repeated clues in a payload *)

#[local] Instance clue_of_pair_inj :
  Inj (=) (=) (λ qa : string * string, mkClue qa.1 qa.2 Hidden).
Proof. intros [q a] [q' a'] [= -> ->]. done. Qed.

(** X11: clues repeated further down a payload do not reach the board: when
    the first [NUM_CLUES] clues of the payload differ pairwise in question or
    answer, the clues of the category appended are pairwise distinct,
    whatever follows them in the payload. *)
Theorem getCategory_body_distinct_clues (env : Env) (id : nat) (st : State)
    (data : Api.category) :
  category_endpoint env (net_log st ++ [Issued (GetCategory id)]) id = Some data →
  Api.clues data ≠ [] →
  NoDup ((λ clue, (Api.question clue, Api.answer clue))
           <$> take NUM_CLUES (Api.clues data)) →
  ∃ category,
    categories (getCategory_body env id st).2 = categories st ++ [category] ∧
    title category = Api.title data ∧
    NoDup (clues category).
Proof.
  intros Hdata Hclues Hnodup. exists (to_category data). split_and!.
  - rewrite getCategory_body_unfold. simpl. rewrite Hdata.
    by destruct (Api.clues data).
  - done.
  - unfold to_category. simpl.
    apply (NoDup_fmap_2 (λ qa : string * string, mkClue qa.1 qa.2 Hidden))
      in Hnodup.
    by rewrite <- list_fmap_compose in Hnodup.
Qed.

Lemma getCategory_body_distinct_clues_witness :
  length (Api.clues (Api.mkCategory "category 7"
                       (sample_clue <$> (seq 70 5 ++ seq 70 5)))) = 10 ∧
  ∃ category,
    categories (getCategory_body repeating_env 7 initial_state).2 = [category] ∧
    title category = "category 7" ∧
    NoDup (clues category).
Proof.
  split; [reflexivity|].
  apply (getCategory_body_distinct_clues repeating_env 7 initial_state
           (Api.mkCategory "category 7" (sample_clue <$> (seq 70 5 ++ seq 70 5)))).
  - reflexivity.
  - discriminate.
  - apply NoDup_ListNoDup. vm_compute.
    repeat (constructor; [cbn; intuition discriminate|]). constructor.
Defined.

(** ** The board and the session *)

Lemma cell_at_put_cell_eq b p x parent_id td :
  cell_at b p = Some (parent_id, td) →
  cell_at (put_cell p x b) p = Some (parent_id, x).
Proof.
  unfold cell_at, put_cell. rewrite list_lookup_alter_eq.
  destruct (b !! node_ix p) as [[titles|rows]|]; simpl; try done.
  rewrite list_lookup_alter_eq.
  destruct (rows !! row_ix p) as [row|]; simpl; [|done].
  destruct (tr_cells row !! col_ix p) as [td'|] eqn:Htd; simpl; [|done].
  intros [= <- _].
  rewrite list_lookup_insert_eq by (by eapply lookup_lt_Some). done.
Qed.

Lemma cell_at_put_cell_ne b p0 x p :
  p ≠ p0 → cell_at (put_cell p0 x b) p = cell_at b p.
Proof.
  intros Hne. unfold cell_at, put_cell.
  destruct (decide (node_ix p0 = node_ix p)) as [Hn|Hn];
    [|by rewrite list_lookup_alter_ne].
  rewrite Hn, list_lookup_alter_eq.
  destruct (b !! node_ix p) as [[titles|rows]|]; simpl; try done.
  destruct (decide (row_ix p0 = row_ix p)) as [Hr|Hr];
    [|by rewrite list_lookup_alter_ne].
  rewrite Hr, list_lookup_alter_eq.
  destruct (rows !! row_ix p) as [row|]; simpl; [|done].
  rewrite list_lookup_insert_ne; [done|].
  intros Hc. apply Hne. destruct p, p0; simpl in *. congruence.
Qed.

Lemma click_cell_unfold p st :
  click_cell p st =
    match cell_at (board st) p with
    | Some (parent_id, td) =>
        match handleClick (mkClick td parent_id) st with
        | (Returned clicked, st') =>
            (Returned tt, set_board (put_cell p clicked (board st')) st')
        | (Thrown x, st') => (Thrown x, st')
        end
    | None => (Returned tt, st)
    end.
Proof.
  unfold click_cell, mbind, M_bind, bind, gets, modify. cbv beta iota.
  destruct (cell_at (board st) p) as [[parent_id td]|]; [|done].
  by destruct (handleClick _ st) as [[clicked|x] st'].
Qed.

Lemma click_cell_board_shows p st :
  board_shows st → board_shows (click_cell p st).2.
Proof.
  intros Hinv. rewrite click_cell_unfold.
  destruct (cell_at (board st) p) as [[rid0 td0]|] eqn:Hcell; [|done].
  destruct (Hinv _ _ _ Hcell) as (Hn0 & Hr0 & Hc0 & -> & Hcat0 & Hshow0).
  set (e := mkClick td0 (row_ix p)).
  assert (categoryIndex e = col_ix p ∧ clueIndex e = row_ix p) as [He1 He2]
    by done.
  destruct (clue_at (categories st) (col_ix p) (row_ix p)) as [clue|] eqn:Hat.
  - rewrite (handleClick_resolved e st clue) by (by rewrite He1, He2).
    rewrite He1, He2.
    assert (∀ s clicked,
              data_category clicked = col_ix p →
              innerText clicked
                = display (mkClue (question clue) (answer clue) s) →
              classList clicked
                = cell_class (mkClue (question clue) (answer clue) s) →
              board_shows
                (set_board (put_cell p clicked (board st))
                   (set_categories
                      (set_showing (col_ix p) (row_ix p) s (categories st)) st)))
      as Hstep.
    { intros s clicked Hcat Htext Hclass q rid td. simpl.
      destruct (decide (q = p)) as [->|Hq].
      - rewrite (cell_at_put_cell_eq _ _ _ _ _ Hcell). intros [= <- <-].
        rewrite clue_at_set_showing_eq, Hat. simpl. by split_and!.
      - rewrite cell_at_put_cell_ne by done. intros Hq'.
        destruct (Hinv _ _ _ Hq') as (Hn & Hr & Hc & -> & Hcat' & Hshow).
        rewrite clue_at_set_showing_ne; [by split_and!|].
        intros [= Hcc Hrr]. apply Hq. destruct q, p; simpl in *. congruence. }
    destruct Hshow0 as [Htext0 Hclass0].
    destruct (showing clue) eqn:Hs; simpl.
    + apply Hstep; [done..|]. simpl. rewrite Hclass0. unfold cell_class.
      by rewrite Hs.
    + by apply Hstep.
    + intros q rid td. simpl. destruct (decide (q = p)) as [->|Hq].
      * rewrite (cell_at_put_cell_eq _ _ _ _ _ Hcell). intros [= <- <-].
        by apply Hinv.
      * rewrite cell_at_put_cell_ne by done. apply Hinv.
  - rewrite (handleClick_unresolved e st) by (by rewrite He1, He2). done.
Qed.

Lemma cell_clicks_board_shows ps st :
  board_shows st → board_shows (cell_clicks ps st).
Proof.
  revert st. induction ps as [|p ps IH]; intros st Hinv; simpl; [done|].
  by apply IH, click_cell_board_shows.
Qed.

Lemma cell_at_rendered titles p parent_id td :
  cell_at [Thead titles; Tbody (new_tr <$> seq 0 NUM_CLUES)] p
    = Some (parent_id, td) →
  node_ix p = 1 ∧ row_ix p < NUM_CLUES ∧ col_ix p < NUM_CATEGORIES ∧
  parent_id = row_ix p ∧ td = new_td (col_ix p).
Proof.
  unfold cell_at. destruct p as [[|[|n]] r c]; cbn [node_ix row_ix col_ix];
    [done| |done].
  change ([Thead titles; Tbody (new_tr <$> seq 0 NUM_CLUES)] !! 1)
    with (Some (Tbody (new_tr <$> seq 0 NUM_CLUES))).
  cbv beta iota. rewrite list_lookup_fmap.
  destruct (seq 0 NUM_CLUES !! r) as [i|] eqn:Hi; [|done].
  apply lookup_seq in Hi as [-> Hr].
  cbn [fmap option_fmap option_map mbind option_bind new_tr tr_cells tr_id].
  rewrite list_lookup_fmap.
  destruct (seq 0 NUM_CATEGORIES !! c) as [j|] eqn:Hj; [|done].
  apply lookup_seq in Hj as [-> Hc]. by intros [= <- <-].
Qed.

Lemma setupAndStart_board_shows env st : board_shows (setupAndStart env st).2.
Proof.
  intros p parent_id td Hcell.
  destruct (setupAndStart_cases env st)
    as (_ & [(_ & Hboard & _)|(_ & Hboard & _)]);
    rewrite Hboard in Hcell; [|by destruct p as [[|n] r c]].
  apply cell_at_rendered in Hcell as (Hn & Hr & Hc & -> & ->).
  split_and!; [done..|].
  destruct (clue_at _ (col_ix p) (row_ix p)) as [clue|] eqn:Hat; [|done].
  apply clue_at_Some in Hat as (category & Hcat & Hclue).
  assert (showing clue = Hidden) as Hs.
  { eapply setupAndStart_all_hidden; eapply list_elem_of_lookup_2; eauto. }
  unfold display, cell_class. by rewrite Hs.
Qed.

Lemma setupAndStart_full_grid env st :
  (∀ history offset, ∃ batch,
      categories_endpoint env history 100 offset = Some batch ∧
      NUM_CATEGORIES ≤ length batch) →
  (∀ history id, ∃ data,
      category_endpoint env history id = Some data ∧
      NUM_CLUES ≤ length (Api.clues data)) →
  full_grid (categories (setupAndStart env st).2).
Proof.
  intros Hbatch Hsource. rewrite setupAndStart_categories.
  destruct (getCategoryIds_completes env (loading st)) as [st1 Hrun].
  { intros history offset. destruct (Hbatch history offset) as (b & -> & _).
    eauto. }
  { intros history id. destruct (Hsource history id) as (data & -> & Hlen).
    exists data. split; [done|]. intros E. rewrite E in Hlen.
    unfold NUM_CLUES in Hlen. simpl in Hlen. lia. }
  rewrite Hrun. simpl.
  apply (getCategoryIds_grid env (loading st) st1);
    [| |reflexivity|exact Hrun].
  - intros history offset batch E.
    destruct (Hbatch history offset) as (b & E' & Hlen). congruence.
  - intros history id data E.
    destruct (Hsource history id) as (d & E' & Hlen). congruence.
Qed.

Lemma click_cell_full_grid p st :
  full_grid (categories st) → full_grid (categories (click_cell p st).2).
Proof.
  intros Hgrid. rewrite click_cell_unfold.
  destruct (cell_at (board st) p) as [[parent_id td]|]; [|done].
  pose proof (handleClick_full_grid (mkClick td parent_id) st Hgrid) as H.
  by destruct (handleClick _ st) as [[clicked|x] st'].
Qed.

Lemma cell_clicks_full_grid ps st :
  full_grid (categories st) → full_grid (categories (cell_clicks ps st)).
Proof.
  revert st. induction ps as [|p ps IH]; intros st Hgrid; simpl; [done|].
  by apply IH, click_cell_full_grid.
Qed.

(** X13: on a page started against a source that always answers, with at
    least [NUM_CATEGORIES] candidates and at least [NUM_CLUES] clues per
    category, no click on a cell of the board ever throws, after any clicks
    before it. *)
Theorem ready_board_clicks_never_throw (env : Env) (st : State)
    (ps : list CellPath) (p : CellPath) :
  (∀ history offset, ∃ batch,
      categories_endpoint env history 100 offset = Some batch ∧
      NUM_CATEGORIES ≤ length batch) →
  (∀ history id, ∃ data,
      category_endpoint env history id = Some data ∧
      NUM_CLUES ≤ length (Api.clues data)) →
  (click_cell p (cell_clicks ps (setupAndStart env st).2)).1 = Returned tt.
Proof.
  intros Hbatch Hsource.
  pose proof (cell_clicks_board_shows ps _ (setupAndStart_board_shows env st))
    as Hinv.
  pose proof (cell_clicks_full_grid ps _
                (setupAndStart_full_grid env st Hbatch Hsource)) as Hgrid.
  set (st' := cell_clicks ps (setupAndStart env st).2) in *.
  rewrite click_cell_unfold.
  destruct (cell_at (board st') p) as [[parent_id td]|] eqn:Hcell; [|done].
  destruct (Hinv _ _ _ Hcell) as (_ & Hr & Hc & -> & Hcat & _).
  destruct (full_grid_clue_at _ _ _ Hgrid Hc Hr) as [clue Hat].
  rewrite (handleClick_resolved (mkClick td (row_ix p)) st' clue).
  - by destruct (showing clue).
  - unfold categoryIndex, clueIndex. simpl. by rewrite Hcat.
Qed.

(** X14: clicks on cells stay local: no sequence of them sends a request,
    draws a random number, raises a notice or touches the loading view, and
    the titles of the categories stay as they are. *)
Theorem cell_clicks_stay_local (ps : list CellPath) (st : State) :
  net_log (cell_clicks ps st) = net_log st ∧
  random_calls (cell_clicks ps st) = random_calls st ∧
  alerts (cell_clicks ps st) = alerts st ∧
  spinner_display (cell_clicks ps st) = spinner_display st ∧
  btn_text (cell_clicks ps st) = btn_text st ∧
  title <$> categories (cell_clicks ps st) = title <$> categories st.
Proof.
  revert st. induction ps as [|p ps IH]; intros st; simpl; [done|].
  destruct (IH (click_cell p st).2) as (-> & -> & -> & -> & -> & ->).
  rewrite click_cell_unfold.
  destruct (cell_at (board st) p) as [[parent_id td]|]; [|done].
  pose proof (handleClick_other_fields (mkClick td parent_id) st)
    as (_ & Hs & Ht & Ha & Hn & Hr).
  pose proof (handleClick_titles (mkClick td parent_id) st) as Htitles.
  destruct (handleClick _ st) as [[clicked|x] st']; simpl in *;
    by split_and!.
Qed.

Lemma ready_board_clicks_never_throw_witness :
  (∀ history offset, ∃ batch,
      categories_endpoint full_env history 100 offset = Some batch ∧
      NUM_CATEGORIES ≤ length batch) ∧
  (∀ history id, ∃ data,
      category_endpoint full_env history id = Some data ∧
      NUM_CLUES ≤ length (Api.clues data)) ∧
  (click_cell (mkPath 1 4 5)
     (cell_clicks [mkPath 1 4 5; mkPath 1 4 5; mkPath 1 0 0]
        (setupAndStart full_env initial_state).2)).1 = Returned tt.
Proof.
  assert (∀ history offset, ∃ batch,
            categories_endpoint full_env history 100 offset = Some batch ∧
            NUM_CATEGORIES ≤ length batch) as Hbatch.
  { intros history offset. eexists. split; [reflexivity|].
    rewrite length_fmap, length_seq. unfold NUM_CATEGORIES.
    change (100 `min` 100) with 100. lia. }
  assert (∀ history id, ∃ data,
            category_endpoint full_env history id = Some data ∧
            NUM_CLUES ≤ length (Api.clues data)) as Hsource.
  { intros history id. eexists. split; [reflexivity|].
    unfold sample_category. cbn [Api.clues].
    rewrite length_fmap, length_seq. unfold NUM_CLUES. lia. }
  split; [exact Hbatch|]. split; [exact Hsource|].
  exact (ready_board_clicks_never_throw full_env initial_state
           [mkPath 1 4 5; mkPath 1 4 5; mkPath 1 0 0] (mkPath 1 4 5)
           Hbatch Hsource).
Defined.

(** * Starts in flight *)

(** ** A start that runs alone is the chain run in one piece *)

Lemma run_settled_idle env n st ended :
  page_run env (replicate n (Settled 0)) (mkPage st [] ended)
  = mkPage st [] ended.
Proof. induction n as [|n IH]; simpl; [done|]. exact IH. Qed.

Lemma run_settled_single env n t st ended :
  page_run env (replicate (S n) (Settled 0)) (mkPage st [t] ended)
  = page_run env (replicate n (Settled 0)) (page_after ended (resume env t st)).
Proof.
  simpl. destruct (resume env t st) as [[[t'|o]|x] st']; simpl; [done|..];
    by rewrite run_settled_idle.
Qed.

Lemma chain_resolved_returns st :
  (chain_resolved st).1 = Returned tt.
Proof.
  unfold chain_resolved, catch, mbind, M_bind, bind.
  destruct (fillTable st) as [[[]|x] st1]; simpl; done.
Qed.

Lemma visit_nil env st :
  visit env [] st = (Returned (inr (Returned tt)), (chain_resolved st).2).
Proof.
  simpl. unfold mbind, M_bind, bind.
  pose proof (chain_resolved_returns st) as H.
  by destruct (chain_resolved st) as [[[]|x] st1].
Qed.

Lemma visit_cons env id rest st :
  visit env (id :: rest) st
  = (Returned (inl (AwaitCategory id
                      (category_endpoint env
                         (net_log st ++ [Issued (GetCategory id)]) id) rest)),
     log_net (Issued (GetCategory id)) st).
Proof. done. Qed.

Lemma catch_visit env ids h st : catch (visit env ids) h st = visit env ids st.
Proof.
  unfold catch. destruct ids as [|id rest].
  - by rewrite visit_nil.
  - by rewrite visit_cons.
Qed.

Lemma catch_bind {A B} (m : M A) (k : A → M B) (h : Exn → M B) st :
  catch (m ≫= k) h st =
    match m st with
    | (Returned a, st') => catch (k a) h st'
    | (Thrown e, st') => h e st'
    end.
Proof.
  unfold catch, mbind, M_bind, bind. by destruct (m st) as [[a|e] st'].
Qed.

Lemma store_category_unfold response st :
  store_category response st =
    match Api.clues response with
    | [] => (Thrown TypeError, st)
    | _ :: _ =>
        (Returned tt,
         set_categories (categories st ++ [to_category response]) st)
    end.
Proof.
  unfold store_category. run_monad.
  rewrite chunk_head by (unfold NUM_CLUES; lia).
  unfold to_category. by destruct (Api.clues response).
Qed.

Lemma resume_category env id answer rest st :
  resume env (AwaitCategory id answer rest) st =
    match answer with
    | None =>
        (Returned (inr (Thrown NetworkError)),
         add_alert failure_notice (log_net (Failed (GetCategory id)) st))
    | Some data =>
        let st1 := log_net (GotCategory (GetCategory id) data) st in
        match Api.clues data with
        | [] => (Returned (inr (Thrown TypeError)),
                 add_alert failure_notice st1)
        | _ :: _ =>
            visit env rest
              (set_categories (categories st ++ [to_category data]) st1)
        end
    end.
Proof.
  unfold resume. rewrite catch_bind.
  destruct answer as [data|]; [|done].
  change (settle_category id (Some data) st)
    with (Returned data, log_net (GotCategory (GetCategory id) data) st).
  cbv beta iota zeta. rewrite catch_bind, store_category_unfold.
  destruct (Api.clues data) as [|c cs]; [done|].
  apply catch_visit.
Qed.

Lemma finish_cons env id rest st :
  finish env (id :: rest) st =
    let st1 := log_net (Issued (GetCategory id)) st in
    match category_endpoint env (net_log st1) id with
    | None =>
        (add_alert failure_notice (log_net (Failed (GetCategory id)) st1),
         Thrown NetworkError)
    | Some data =>
        let st2 := log_net (GotCategory (GetCategory id) data) st1 in
        match Api.clues data with
        | [] => (add_alert failure_notice st2, Thrown TypeError)
        | _ :: _ =>
            finish env rest
              (set_categories (categories st ++ [to_category data]) st2)
        end
    end.
Proof.
  unfold finish. simpl. unfold mbind, M_bind, bind.
  rewrite getCategory_body_unfold. simpl.
  destruct (category_endpoint env _ id) as [data|]; [|done].
  by destruct (Api.clues data).
Qed.

(** The loop from [ids] on, alone in flight: once it has settled, the page is
    what the loop and the end of the chain leave in one piece; it has settled
    after as many answers as there are ids. *)
Lemma alone_visit env ids st n ended :
  length ids ≤ n ∨
  in_flight (page_run env (replicate n (Settled 0))
               (page_after ended (visit env ids st))) = [] →
  page_run env (replicate n (Settled 0)) (page_after ended (visit env ids st))
  = mkPage (finish env ids st).1 [] (ended ++ [(finish env ids st).2]).
Proof.
  revert st n. induction ids as [|id rest IH]; intros st n Hn.
  - rewrite visit_nil. simpl. rewrite run_settled_idle. done.
  - rewrite visit_cons in *. simpl page_after in *.
    destruct n as [|n]; [destruct Hn as [Hn|Hn]; simpl in Hn; [lia|done]|].
    rewrite run_settled_single in *. rewrite resume_category in *.
    rewrite finish_cons. cbv zeta in *.
    change (net_log (log_net (Issued (GetCategory id)) st))
      with (net_log st ++ [Issued (GetCategory id)]).
    destruct (category_endpoint env _ id) as [data|].
    + destruct (Api.clues data) as [|c cs].
      * simpl. by rewrite run_settled_idle.
      * apply IH. destruct Hn as [Hn|Hn]; [left; simpl in Hn; lia|by right].
    + simpl. by rewrite run_settled_idle.
Qed.

Lemma chain_resolved_state st :
  (chain_resolved st).2 =
    match fillTable st with
    | (Returned _, st1) => (hideLoadingView st1).2
    | (Thrown _, st1) => (alert failure_notice st1).2
    end.
Proof.
  unfold chain_resolved, catch, mbind, M_bind, bind.
  destruct (fillTable st) as [[[]|x] st1]; simpl; done.
Qed.

Lemma resume_categories env r answer st :
  resume env (AwaitCategories r answer) st =
    match answer with
    | None =>
        (Returned (inr (Thrown NetworkError)),
         add_alert failure_notice (log_net (Failed r) st))
    | Some data =>
        visit env
          (Api.id <$> Lodash.sampleSize
                        (λ i, random_outcome env (random_calls st + i))
                        data NUM_CATEGORIES)
          (use_random (NUM_CATEGORIES `min` length data)
                      (log_net (GotCategories r data) st))
    end.
Proof.
  unfold resume. rewrite catch_bind.
  destruct answer as [data|]; [|done].
  change (settle_categories r (Some data) st)
    with (Returned data, log_net (GotCategories r data) st).
  cbv beta iota zeta. rewrite catch_bind.
  change (sampleSize env data NUM_CATEGORIES (log_net (GotCategories r data) st))
    with (Returned (Lodash.sampleSize
                      (λ i, random_outcome env (random_calls st + i))
                      data NUM_CATEGORIES),
          use_random (NUM_CATEGORIES `min` length data)
                     (log_net (GotCategories r data) st)).
  cbv beta iota. apply catch_visit.
Qed.

Lemma start_unfold env st :
  start env st =
    let offset := random_outcome env (random_calls st) `mod` 7150 in
    let st1 := log_net (Issued (GetCategories 100 offset))
                       (use_random 1 (loading st)) in
    (Returned (AwaitCategories (GetCategories 100 offset)
                 (categories_endpoint env (net_log st1) 100 offset)),
     st1).
Proof. done. Qed.

(** The run of a start alone against the chain in one piece: once the start
    has settled, which it has after at most [NUM_CATEGORIES + 1] answers, the
    page holds the state [setupAndStart] leaves, and the one promise of
    [getCategoryIds] has ended as [getCategoryIds] ends. *)
Lemma start_alone_settled env n st :
  NUM_CATEGORIES + 1 ≤ n ∨ in_flight (start_alone env n st) = [] →
  start_alone env n st
  = mkPage (setupAndStart env st).2 [] [(getCategoryIds env (loading st)).1].
Proof.
  unfold start_alone. cbn [page_run page_step page_state in_flight builds_ended].
  rewrite start_unfold. cbv zeta. cbn [app].
  rewrite setupAndStart_unfold, getCategoryIds_unfold, selectCategoryIds_unfold.
  cbv zeta.
  change (random_calls (loading st)) with (random_calls st).
  set (offset := random_outcome env (random_calls st) `mod` 7150).
  set (st1 := log_net (Issued (GetCategories 100 offset))
                      (use_random 1 (loading st))).
  intros Hn.
  destruct n as [|n]; [destruct Hn as [Hn|Hn]; [unfold NUM_CATEGORIES in Hn; lia|done]|].
  rewrite run_settled_single in *. rewrite resume_categories in *.
  destruct (categories_endpoint env (net_log st1) 100 offset) as [batch|].
  - change (random_calls st1) with (random_calls st + 1) in *.
    set (ids := Api.id <$> Lodash.sampleSize
                             (λ i, random_outcome env (random_calls st + 1 + i))
                             batch NUM_CATEGORIES) in *.
    set (st2 := use_random (NUM_CATEGORIES `min` length batch)
                  (log_net (GotCategories (GetCategories 100 offset) batch) st1))
      in *.
    rewrite alone_visit.
    + unfold finish. cbn [app].
      destruct (getCategory env ids st2) as [[r|x] st3]; cbn [fst snd].
      * rewrite chain_resolved_state.
        by destruct (fillTable st3) as [[[]|x] st4].
      * done.
    + destruct Hn as [Hn|Hn]; [left|by right].
      subst ids. rewrite length_fmap, sampleSize_length.
      unfold NUM_CATEGORIES in *. lia.
  - cbn. by rewrite run_settled_idle.
Qed.

Lemma start_alone_state env n st :
  in_flight (start_alone env n st) = [] →
  page_state (start_alone env n st) = (setupAndStart env st).2 ∧
  builds_ended (start_alone env n st) = [(getCategoryIds env (loading st)).1].
Proof. intros Hn. by rewrite start_alone_settled by (by right). Qed.

Lemma run_cell_clicks env ps page :
  page_run env (CellClicked <$> ps) page
  = mkPage (cell_clicks ps (page_state page)) (in_flight page)
           (builds_ended page).
Proof.
  revert page. induction ps as [|p ps IH]; intros [st pool ended]; simpl;
    [done|].
  by rewrite IH.
Qed.

(** With no start in flight and none clicked, the session keeps its shape:
    settlements find no task, clicks on cells keep a full grid. *)
Lemma run_idle_full_grid env evs page :
  in_flight page = [] →
  StartClicked ∉ evs →
  full_grid (categories (page_state page)) →
  full_grid (categories (page_state (page_run env evs page))).
Proof.
  revert page. induction evs as [|ev evs IH]; intros [st pool ended]; simpl;
    intros -> Hevs Hgrid; [done|].
  apply not_elem_of_cons in Hevs as [Hev Hevs].
  destruct ev as [|k|p]; [done| |]; simpl.
  - by apply IH.
  - apply IH; [done..|]. by apply click_cell_full_grid.
Qed.

(** ** The shape of the session *)

(** C1, as the code has it: take a start that runs alone (no other start in
    flight from the click to the end of its chain), against a source that
    answers with at least [NUM_CATEGORIES] candidates and with at least
    [NUM_CLUES] clues for every category.  When its acquisition completes
    successfully (the promise of [getCategoryIds] resolves), the session has
    exactly [NUM_CATEGORIES] categories of exactly [NUM_CLUES] clues each, and
    every address [(i, j)] with [i < NUM_CATEGORIES], [j < NUM_CLUES] resolves
    to a clue, then and after any sequence of calls of [handleClick] and
    after any events on the page up to the next start. *)
Theorem acquisition_full_grid (env : Env) (st : State) (n : nat) :
  (∀ history offset batch,
      categories_endpoint env history 100 offset = Some batch →
      NUM_CATEGORIES ≤ length batch) →
  (∀ history id data,
      category_endpoint env history id = Some data →
      NUM_CLUES ≤ length (Api.clues data)) →
  in_flight (start_alone env n st) = [] →
  builds_ended (start_alone env n st) = [Returned tt] →
  length (categories (page_state (start_alone env n st))) = NUM_CATEGORIES ∧
  (∀ category,
      category ∈ categories (page_state (start_alone env n st)) →
      length (clues category) = NUM_CLUES) ∧
  (∀ es i j, i < NUM_CATEGORIES → j < NUM_CLUES →
     is_Some (clue_at (categories
                         (clicks es (page_state (start_alone env n st))))
                      i j)) ∧
  (∀ evs i j, StartClicked ∉ evs → i < NUM_CATEGORIES → j < NUM_CLUES →
     is_Some (clue_at (categories
                         (page_state
                            (page_run env evs (start_alone env n st))))
                      i j)).
Proof.
  intros Hbatch Hpayload Hsettled Hended.
  destruct (start_alone_state env n st Hsettled) as [Hstate Hbuild].
  rewrite Hbuild in Hended. injection Hended as Hret.
  assert (full_grid (categories (page_state (start_alone env n st)))) as Hgrid.
  { rewrite Hstate, setupAndStart_categories.
    apply (getCategoryIds_grid env (loading st)); [done..|].
    by destruct (getCategoryIds env (loading st)) as [[[]|x] st1];
      simplify_eq/=. }
  split_and!.
  - apply Hgrid.
  - intros category Hin. destruct Hgrid as [_ Hall].
    rewrite Forall_forall in Hall. by apply Hall.
  - intros es i j Hi Hj.
    apply full_grid_clue_at; [by apply clicks_full_grid|done..].
  - intros evs i j Hevs Hi Hj.
    apply full_grid_clue_at; [by apply run_idle_full_grid|done..].
Qed.

Lemma acquisition_full_grid_witness :
  in_flight (start_alone full_env 7 initial_state) = [] ∧
  builds_ended (start_alone full_env 7 initial_state) = [Returned tt] ∧
  length (categories (page_state (start_alone full_env 7 initial_state))) = 6 ∧
  (∀ category,
      category ∈ categories (page_state (start_alone full_env 7 initial_state)) →
      length (clues category) = 5).
Proof.
  split; [vm_compute; reflexivity|]. split; [vm_compute; reflexivity|].
  destruct (acquisition_full_grid full_env initial_state 7)
    as (Hlen & Hclues & _).
  - intros history offset batch H. injection H as <-.
    unfold NUM_CATEGORIES. cbn [length]. lia.
  - intros history id data H. injection H as <-.
    unfold NUM_CLUES, sample_category. cbn [Api.clues].
    rewrite length_fmap, length_seq. lia.
  - vm_compute; reflexivity.
  - vm_compute; reflexivity.
  - split; [exact Hlen|exact Hclues].
Defined.

(** ** A fetch that fails *)

(** C3, as the code has it: take a start that runs alone and whose
    selection is [ids]; when the fetch of one of them fails (the loop over
    [ids] throws), the build fails as a whole: the promise of
    [getCategoryIds] is rejected, the failure notice is raised exactly once,
    [fillTable] never runs and the board stays empty.  The global
    [categories] array is not rolled back: with [k] the position of the
    failing id, the traffic of the loop is the requests for the first [k]
    ids, each with its answer, then the failing request, and the array holds
    exactly the [k] categories made from those answers, in order. *)
Theorem setupAndStart_failed_fetch (env : Env) (st : State) (n : nat)
    (ids : list nat) (st1 : State) (x : Exn) (st2 : State) :
  selectCategoryIds env (loading st) = (Returned ids, st1) →
  getCategory env ids st1 = (Thrown x, st2) →
  in_flight (start_alone env n st) = [] →
  ∃ payloads id last_event,
    ids !! length payloads = Some id ∧
    net_log (page_state (start_alone env n st))
      = net_log st1 ++ fetch_log (take (length payloads) ids) payloads
        ++ [Issued (GetCategory id); last_event] ∧
    (last_event = Failed (GetCategory id) ∨
     ∃ data, last_event = GotCategory (GetCategory id) data ∧
             Api.clues data = []) ∧
    categories (page_state (start_alone env n st)) = to_category <$> payloads ∧
    builds_ended (start_alone env n st) = [Thrown x] ∧
    alerts (page_state (start_alone env n st)) = alerts st ++ [failure_notice] ∧
    board (page_state (start_alone env n st)) = [].
Proof.
  intros Hsel Hloop Hsettled.
  destruct (start_alone_state env n st Hsettled) as [-> ->].
  destruct (getCategory_thrown _ _ _ _ _ Hloop)
    as (payloads & id & ev & Hid & Hcats & Hlog & Hev).
  pose proof (selectCategoryIds_other_fields env (loading st)) as Hsel'.
  pose proof (getCategory_other_fields env ids st1) as Hloop'.
  rewrite Hsel in Hsel'. rewrite Hloop in Hloop'. simpl in *.
  destruct Hsel' as (Hc1 & Hb1 & Ha1).
  destruct Hloop' as (Hb2 & _ & _ & Ha2 & _).
  exists payloads, id, ev.
  rewrite setupAndStart_unfold, getCategoryIds_unfold, Hsel, Hloop. simpl.
  split_and!; [done|done| |by rewrite Hcats, Hc1|done| |].
  - destruct Hev as [[_ ->]|[_ (data & -> & Hclues)]]; eauto.
  - by rewrite Ha2, Ha1.
  - by rewrite Hb2, Hb1.
Qed.

Lemma setupAndStart_failed_fetch_witness :
  ∃ st1 st2,
    selectCategoryIds flaky_env (loading initial_state)
      = (Returned [5; 9; 13; 17; 21; 25], st1) ∧
    getCategory flaky_env [5; 9; 13; 17; 21; 25] st1 = (Thrown NetworkError, st2) ∧
    in_flight (start_alone flaky_env 7 initial_state) = [] ∧
    ∃ payloads id last_event,
      [5; 9; 13; 17; 21; 25] !! length payloads = Some id ∧
      net_log (page_state (start_alone flaky_env 7 initial_state))
        = net_log st1
          ++ fetch_log (take (length payloads) [5; 9; 13; 17; 21; 25]) payloads
          ++ [Issued (GetCategory id); last_event] ∧
      categories (page_state (start_alone flaky_env 7 initial_state))
        = to_category <$> payloads ∧
      alerts (page_state (start_alone flaky_env 7 initial_state))
        = [failure_notice] ∧
      board (page_state (start_alone flaky_env 7 initial_state)) = [].
Proof.
  exists (selectCategoryIds flaky_env (loading initial_state)).2.
  exists (getCategory flaky_env [5; 9; 13; 17; 21; 25]
            (selectCategoryIds flaky_env (loading initial_state)).2).2.
  split; [vm_compute; reflexivity|]. split; [vm_compute; reflexivity|].
  split; [vm_compute; reflexivity|].
  destruct (setupAndStart_failed_fetch flaky_env initial_state 7
              [5; 9; 13; 17; 21; 25]
              (selectCategoryIds flaky_env (loading initial_state)).2
              NetworkError
              (getCategory flaky_env [5; 9; 13; 17; 21; 25]
                 (selectCategoryIds flaky_env (loading initial_state)).2).2)
    as (payloads & id & ev & Hid & Hlog & _ & Hcats & _ & Halerts & Hboard);
    [vm_compute; reflexivity..|].
  exists payloads, id, ev.
  split_and!; [exact Hid|exact Hlog|exact Hcats|exact Halerts|exact Hboard].
Defined.

(** ** Order of the fetches *)

(** C7, as the code has it: a build that runs alone fetches the selected ids
    strictly one after the other and accumulates the categories in the order
    of selection.  When such a build succeeds, it has sent one category
    request per selected id, in the order of selection, each request settled
    before the next is issued (request [i] is issued at position [2 i] of the
    traffic of the loop and answered at position [2 i + 1]), and the [i]-th
    category of the session is made from the payload answered for the [i]-th
    selected id. *)
Theorem build_fetches_in_selection_order (env : Env) (st : State) (n : nat) :
  in_flight (start_alone env n st) = [] →
  builds_ended (start_alone env n st) = [Returned tt] →
  ∃ ids st1 payloads,
    selectCategoryIds env (loading st) = (Returned ids, st1) ∧
    length payloads = length ids ∧
    net_log (page_state (start_alone env n st))
      = net_log st1 ++ fetch_log ids payloads ∧
    categories (page_state (start_alone env n st)) = to_category <$> payloads ∧
    ∀ i id, ids !! i = Some id →
      ∃ data,
        payloads !! i = Some data ∧
        net_log (page_state (start_alone env n st))
          !! (length (net_log st1) + 2 * i)
          = Some (Issued (GetCategory id)) ∧
        net_log (page_state (start_alone env n st))
          !! (length (net_log st1) + 2 * i + 1)
          = Some (GotCategory (GetCategory id) data) ∧
        categories (page_state (start_alone env n st)) !! i
          = Some {| title := Api.title data;
                    clues := project <$> take NUM_CLUES (Api.clues data) |}.
Proof.
  intros Hsettled Hended.
  destruct (start_alone_state env n st Hsettled) as [Hstate Hbuild].
  rewrite Hbuild in Hended. injection Hended as Hret.
  rewrite Hstate, setupAndStart_net_log, setupAndStart_categories.
  destruct (getCategoryIds env (loading st)) as [[[]|x] st'] eqn:Hrun;
    [|done].
  destruct (getCategoryIds_in_selection_order env (loading st) st' Hrun)
    as (ids & st1 & payloads & Hsel & Hlen & Hlog & Hcats & Hplaces).
  exists ids, st1, payloads. simpl in *. split_and!; [done..|].
  intros i id Hid. destruct (Hplaces i id Hid) as (data & ? & ? & ? & ?).
  by exists data.
Qed.

Lemma build_fetches_in_selection_order_witness :
  in_flight (start_alone full_env 7 initial_state) = [] ∧
  builds_ended (start_alone full_env 7 initial_state) = [Returned tt] ∧
  ∃ ids st1 payloads,
    selectCategoryIds full_env (loading initial_state) = (Returned ids, st1) ∧
    length payloads = length ids ∧
    net_log (page_state (start_alone full_env 7 initial_state))
      = net_log st1 ++ fetch_log ids payloads ∧
    categories (page_state (start_alone full_env 7 initial_state))
      = to_category <$> payloads.
Proof.
  split; [vm_compute; reflexivity|]. split; [vm_compute; reflexivity|].
  destruct (build_fetches_in_selection_order full_env initial_state 7)
    as (ids & st1 & payloads & Hsel & Hlen & Hlog & Hcats & _);
    [vm_compute; reflexivity..|].
  exists ids, st1, payloads.
  split_and!; [exact Hsel|exact Hlen|exact Hlog|exact Hcats].
Defined.

(** The claim of C7 as written fails: with the start button clicked twice,
    both builds succeed, the first having selected the ids 8, 12, ..., 28 and
    the second 29, 33, ..., 49, and the one array holds the twelve categories
    interleaved: its second category is not the one of the second id of the
    first build, and its first is not the one of the first id of the
    second. *)
Lemma overlapping_builds_interleave :
  let page := page_run full_env overlapping_starts (mkPage initial_state [] []) in
  in_flight page = [] ∧
  builds_ended page = [Returned tt; Returned tt] ∧
  issued (net_log (page_state page))
    = [GetCategories 100 1; GetCategories 100 4;
       GetCategory 8; GetCategory 29; GetCategory 12; GetCategory 33;
       GetCategory 16; GetCategory 37; GetCategory 20; GetCategory 41;
       GetCategory 24; GetCategory 45; GetCategory 28; GetCategory 49] ∧
  title <$> categories (page_state page)
    = ["category 8"; "category 29"; "category 12"; "category 33";
       "category 16"; "category 37"; "category 20"; "category 41";
       "category 24"; "category 45"; "category 28"; "category 49"] ∧
  categories (page_state page) !! 1 ≠ Some (to_category (sample_category 10 12)) ∧
  categories (page_state page) !! 0 ≠ Some (to_category (sample_category 10 29)).
Proof.
  cbv zeta. split_and!; try (vm_compute; reflexivity);
    vm_compute; discriminate.
Qed.

(** ** Outcomes of a start that runs alone *)

(** X3: a start that runs alone (no other start in flight from the click to
    the end of its chain) has settled after at most [NUM_CATEGORIES + 1]
    answers, and once settled it has ended in one of two ways.  Either the
    session has exactly [NUM_CATEGORIES] categories, the board is their
    titles over a fresh body, the loading view is taken down and no notice
    is raised; or exactly one failure notice is raised, the board is empty
    and the loading view stays up (the button keeps ['LOADING...'] and the
    spinner stays visible). *)
Theorem start_alone_outcomes (env : Env) (st : State) (n : nat) :
  (NUM_CATEGORIES + 1 ≤ n → in_flight (start_alone env n st) = []) ∧
  (in_flight (start_alone env n st) = [] →
   (length (categories (page_state (start_alone env n st))) = NUM_CATEGORIES ∧
    board (page_state (start_alone env n st))
      = [Thead (title <$> categories (page_state (start_alone env n st)));
         Tbody (new_tr <$> seq 0 NUM_CLUES)] ∧
    spinner_display (page_state (start_alone env n st)) = "none" ∧
    btn_text (page_state (start_alone env n st)) = "RESTART" ∧
    alerts (page_state (start_alone env n st)) = alerts st)
   ∨
   (alerts (page_state (start_alone env n st)) = alerts st ++ [failure_notice] ∧
    board (page_state (start_alone env n st)) = [] ∧
    spinner_display (page_state (start_alone env n st)) = "inline-block" ∧
    btn_text (page_state (start_alone env n st)) = "LOADING...")).
Proof.
  split.
  - intros Hn. by rewrite start_alone_settled by (by left).
  - intros Hsettled. destruct (start_alone_state env n st Hsettled) as [-> _].
    apply setupAndStart_cases.
Qed.

Lemma start_alone_outcomes_witness :
  in_flight (start_alone full_env 7 initial_state) = [] ∧
  btn_text (page_state (start_alone full_env 7 initial_state)) = "RESTART" ∧
  in_flight (start_alone flaky_env 4 initial_state) = [] ∧
  btn_text (page_state (start_alone flaky_env 4 initial_state)) = "LOADING...".
Proof.
  destruct (start_alone_outcomes full_env initial_state 7) as [Hsettled _].
  destruct (start_alone_outcomes flaky_env initial_state 4) as [_ Hflaky].
  split; [apply Hsettled; unfold NUM_CATEGORIES; lia|].
  split; [vm_compute; reflexivity|].
  split; [vm_compute; reflexivity|].
  destruct Hflaky as [(_ & _ & _ & _ & Halerts)|(_ & _ & _ & Hbtn)].
  - vm_compute; reflexivity.
  - vm_compute in Halerts. discriminate Halerts.
  - exact Hbtn.
Defined.

(** X4: a start that runs alone against a source that always answers, with
    at least [NUM_CATEGORIES] candidates and at least [NUM_CLUES] clues per
    category, succeeds: after [NUM_CATEGORIES + 1] answers it has settled,
    the promise of [getCategoryIds] has resolved, no notice is raised, the
    loading view is taken down, the session is a full grid and the board
    shows its titles over a body of fresh cells. *)
Theorem start_alone_ready (env : Env) (st : State) (n : nat) :
  (∀ history offset, ∃ batch,
      categories_endpoint env history 100 offset = Some batch ∧
      NUM_CATEGORIES ≤ length batch) →
  (∀ history id, ∃ data,
      category_endpoint env history id = Some data ∧
      NUM_CLUES ≤ length (Api.clues data)) →
  NUM_CATEGORIES + 1 ≤ n →
  in_flight (start_alone env n st) = [] ∧
  builds_ended (start_alone env n st) = [Returned tt] ∧
  alerts (page_state (start_alone env n st)) = alerts st ∧
  spinner_display (page_state (start_alone env n st)) = "none" ∧
  btn_text (page_state (start_alone env n st)) = "RESTART" ∧
  full_grid (categories (page_state (start_alone env n st))) ∧
  board (page_state (start_alone env n st))
    = [Thead (title <$> categories (page_state (start_alone env n st)));
       Tbody (new_tr <$> seq 0 NUM_CLUES)].
Proof.
  intros Hbatch Hsource Hn.
  rewrite start_alone_settled by (by left). simpl.
  destruct (setupAndStart_ready_chain env st Hbatch Hsource)
    as (_ & Ha & Hs & Ht & Hgrid & Hboard).
  split_and!; try done.
  destruct (getCategoryIds_completes env (loading st)) as [st1 ->]; [| |done].
  - intros history offset. destruct (Hbatch history offset) as (b & -> & _).
    eauto.
  - intros history id. destruct (Hsource history id) as (data & -> & Hlen).
    exists data. split; [done|]. intros E. rewrite E in Hlen.
    unfold NUM_CLUES in Hlen. simpl in Hlen. lia.
Qed.

Lemma start_alone_ready_witness :
  NUM_CATEGORIES + 1 ≤ 7 ∧
  in_flight (start_alone full_env 7 initial_state) = [] ∧
  builds_ended (start_alone full_env 7 initial_state) = [Returned tt] ∧
  btn_text (page_state (start_alone full_env 7 initial_state)) = "RESTART" ∧
  full_grid (categories (page_state (start_alone full_env 7 initial_state))).
Proof.
  split; [unfold NUM_CATEGORIES; lia|].
  destruct (start_alone_ready full_env initial_state 7)
    as (Hsettled & Hended & _ & _ & Hbtn & Hgrid & _).
  - intros history offset. eexists. split; [reflexivity|].
    rewrite length_fmap, length_seq. unfold NUM_CATEGORIES.
    change (100 `min` 100) with 100. lia.
  - intros history id. eexists. split; [reflexivity|].
    unfold sample_category. cbn [Api.clues].
    rewrite length_fmap, length_seq. unfold NUM_CLUES. lia.
  - unfold NUM_CATEGORIES. lia.
  - split_and!; [exact Hsettled|exact Hended|exact Hbtn|exact Hgrid].
Defined.

(** X5: when the source lists fewer than [NUM_CATEGORIES] candidates, a start
    that runs alone ends in the failure notice even if every request
    succeeds: the short selection is fetched, and [fillTable] then throws on
    the missing category, which the [catch] of the chain turns into the
    notice.  The board stays empty, fewer than [NUM_CATEGORIES] categories
    stay in the array and the loading view stays up. *)
Theorem start_alone_scarce_source (env : Env) (st : State) (n : nat) :
  (∀ history offset batch,
      categories_endpoint env history 100 offset = Some batch →
      length batch < NUM_CATEGORIES) →
  in_flight (start_alone env n st) = [] →
  alerts (page_state (start_alone env n st)) = alerts st ++ [failure_notice] ∧
  board (page_state (start_alone env n st)) = [] ∧
  length (categories (page_state (start_alone env n st))) < NUM_CATEGORIES ∧
  btn_text (page_state (start_alone env n st)) = "LOADING...".
Proof.
  intros Hscarce Hsettled.
  destruct (start_alone_state env n st Hsettled) as [-> _].
  by apply setupAndStart_scarce_chain.
Qed.

Lemma start_alone_scarce_source_witness :
  (∀ history offset batch,
      categories_endpoint scarce_env history 100 offset = Some batch →
      length batch < NUM_CATEGORIES) ∧
  in_flight (start_alone scarce_env 3 initial_state) = [] ∧
  builds_ended (start_alone scarce_env 3 initial_state) = [Returned tt] ∧
  alerts (page_state (start_alone scarce_env 3 initial_state))
    = [failure_notice] ∧
  board (page_state (start_alone scarce_env 3 initial_state)) = [] ∧
  length (categories (page_state (start_alone scarce_env 3 initial_state))) = 2.
Proof.
  assert (∀ history offset batch,
            categories_endpoint scarce_env history 100 offset = Some batch →
            length batch < NUM_CATEGORIES) as Hscarce.
  { intros history offset batch H. injection H as <-.
    unfold NUM_CATEGORIES. cbn [length]. lia. }
  assert (in_flight (start_alone scarce_env 3 initial_state) = []) as Hsettled
    by (vm_compute; reflexivity).
  split; [exact Hscarce|]. split; [exact Hsettled|].
  split; [vm_compute; reflexivity|].
  destruct (start_alone_scarce_source scarce_env initial_state 3
              Hscarce Hsettled) as (Halerts & Hboard & _).
  split_and!; [exact Halerts|exact Hboard|vm_compute; reflexivity].
Defined.

(** X8: a start that runs alone replaces the session wholesale.  What it
    leaves does not depend on the categories and the board it finds, and once
    it has settled every clue of the session it leaves, complete or not, is
    [Hidden], however far the clues of the session before had been
    revealed. *)
Theorem start_alone_fresh_session (env : Env) (st : State) (n : nat)
    (cs : list Category) (b : list BoardNode) :
  start_alone env n (set_board b (set_categories cs st)) = start_alone env n st ∧
  (in_flight (start_alone env n st) = [] →
   ∀ category clue,
     category ∈ categories (page_state (start_alone env n st)) →
     clue ∈ clues category →
     showing clue = Hidden).
Proof.
  split; [done|].
  intros Hsettled category clue.
  destruct (start_alone_state env n st Hsettled) as [-> _].
  apply setupAndStart_all_hidden.
Qed.

Lemma start_alone_fresh_session_witness :
  start_alone full_env 7
    (set_board (board full_page)
       (set_categories (categories (clicks [sample_click] full_page))
                       initial_state))
  = start_alone full_env 7 initial_state ∧
  in_flight (start_alone full_env 7 initial_state) = [] ∧
  ∀ category clue,
    category ∈ categories (page_state (start_alone full_env 7 initial_state)) →
    clue ∈ clues category →
    showing clue = Hidden.
Proof.
  destruct (start_alone_fresh_session full_env initial_state 7
              (categories (clicks [sample_click] full_page)) (board full_page))
    as [Hsame Hhidden].
  assert (in_flight (start_alone full_env 7 initial_state) = []) as Hsettled
    by (vm_compute; reflexivity).
  split; [exact Hsame|]. split; [exact Hsettled|]. exact (Hhidden Hsettled).
Defined.

(** X12: the board shows the session.  After a start that ran alone and any
    sequence of clicks on cells since, every cell of the board carries its own
    row and column as its address and shows the state of the clue at that
    address: ['?'] while the clue is [Hidden], the question once it is
    [Question], the answer with the class ['answered'] once it is [Answer]; a
    cell whose address resolves to no clue keeps its ['?']. *)
Theorem board_tracks_session (env : Env) (st : State) (n : nat)
    (ps : list CellPath) (p : CellPath) (parent_id : nat) (td : Td) :
  in_flight (start_alone env n st) = [] →
  cell_at (board (page_state
                    (page_run env (CellClicked <$> ps) (start_alone env n st))))
          p
    = Some (parent_id, td) →
  parent_id = row_ix p ∧ data_category td = col_ix p ∧
  match clue_at (categories
                   (page_state
                      (page_run env (CellClicked <$> ps)
                                (start_alone env n st))))
                (data_category td) parent_id with
  | Some clue =>
      match showing clue with
      | Hidden => innerText td = "?" ∧ classList td = ""
      | Question => innerText td = question clue ∧ classList td = ""
      | Answer => innerText td = answer clue ∧ classList td = "answered"
      end
  | None => innerText td = "?" ∧ classList td = ""
  end.
Proof.
  intros Hsettled. rewrite run_cell_clicks. cbn [page_state].
  destruct (start_alone_state env n st Hsettled) as [-> _].
  intros Hcell.
  destruct (cell_clicks_board_shows ps _ (setupAndStart_board_shows env st)
              _ _ _ Hcell) as (_ & _ & _ & -> & Hcat & Hshow).
  rewrite Hcat. split_and!; [done..|].
  destruct (clue_at _ (col_ix p) (row_ix p)) as [clue|]; [|done].
  unfold display, cell_class in Hshow. by destruct (showing clue).
Qed.

Lemma board_tracks_session_witness :
  in_flight (start_alone full_env 7 initial_state) = [] ∧
  cell_at (board (page_state
                    (page_run full_env
                       (CellClicked <$> [mkPath 1 3 2; mkPath 1 0 0; mkPath 1 3 2])
                       (start_alone full_env 7 initial_state))))
          (mkPath 1 3 2)
    = Some (3, mkTd 2 "answer 133" "answered") ∧
  clue_at (categories
             (page_state
                (page_run full_env
                   (CellClicked <$> [mkPath 1 3 2; mkPath 1 0 0; mkPath 1 3 2])
                   (start_alone full_env 7 initial_state)))) 2 3
    = Some (mkClue "question 133" "answer 133" Answer) ∧
  3 = row_ix (mkPath 1 3 2).
Proof.
  assert (in_flight (start_alone full_env 7 initial_state) = []) as Hsettled
    by (vm_compute; reflexivity).
  assert (cell_at (board (page_state
                    (page_run full_env
                       (CellClicked <$> [mkPath 1 3 2; mkPath 1 0 0; mkPath 1 3 2])
                       (start_alone full_env 7 initial_state))))
                  (mkPath 1 3 2)
          = Some (3, mkTd 2 "answer 133" "answered")) as Hcell
    by (vm_compute; reflexivity).
  split; [exact Hsettled|]. split; [exact Hcell|].
  split; [vm_compute; reflexivity|].
  exact (proj1 (board_tracks_session full_env initial_state 7
                  [mkPath 1 3 2; mkPath 1 0 0; mkPath 1 3 2]
                  (mkPath 1 3 2) 3 (mkTd 2 "answer 133" "answered")
                  Hsettled Hcell)).
Defined.
